(** * The state-diff builder of [statediff/builder.go]

    A shallow embedding of the builder that computes the difference between
    two versions of the world state, each a Merkle-Patricia trie over a shared
    node store.  The Go functions become Rocq functions of the same name:

    - a Go function returning [(T, error)] returns a [result T], whose third
      outcome [Panic] stands for a run-time panic (failed type assertion,
      index out of range, nil dereference);
    - a function that writes to an output callback runs in the monad [M],
      which collects the records handed to the callback, in order;
    - Go maps are [gmap]s, and the unspecified order of a [range] over a map
      is an explicit parameter;
    - the packages the builder imports (trie, rlp, crypto, state database)
      are collected in the records [Database] and [Codec]. *)

From Stdlib Require Import Strings.Byte.
From stdpp Require Import gmap strings list sorting.

#[global] Instance byte_eq_decision : EqDecision byte := Byte.byte_eq_dec.

Abbreviation bytes := (list byte).

(** ** Go values *)

(** An [error] is modelled by its message; [fmt.Errorf] builds a new message. *)
Definition error := string.

Inductive result (A : Type) : Type :=
| Ok (a : A)
| Err (e : error)
| Panic.
Arguments Ok {A} a.
Arguments Err {A} e.
Arguments Panic {A}.

Definition rbind {A B} (m : result A) (k : A -> result B) : result B :=
  match m with
  | Ok a => k a
  | Err e => Err e
  | Panic => Panic
  end.

(** A call [v, err := f(...)] to a collaborator, followed by
    [if err != nil { return ..., err }]. *)
Definition call {A} (r : error + A) : result A :=
  match r with
  | inl e => Err e
  | inr a => Ok a
  end.

(** [fmt.Errorf(prefix + "%v", err)] around a failed call. *)
Definition wrapErr {A} (prefix : string) (m : result A) : result A :=
  match m with
  | Err e => Err (prefix +:+ e)
  | other => other
  end.

Notation "x <-? m ;; k" := (rbind m (fun x => k))
  (at level 100, m at next level, right associativity).

(** *** Output callbacks

  [StateNodeSink] and [StorageNodeSink] are closures [func(node) error].
  A callback is modelled by its decision, given the records it has been
  handed before, on the next one: [None] is a nil error. *)
Definition Sink (R : Type) := list R -> R -> option error.

(** A computation that writes to a callback: given the records the callback
    has already received, it yields the records it hands over itself, in
    order, and its outcome. *)
Definition M (R A : Type) := list R -> list R * result A.

Definition ret {R A} (a : A) : M R A := fun _ => ([], Ok a).

Definition bind {R A B} (m : M R A) (k : A -> M R B) : M R B :=
  fun h =>
    match m h with
    | (n1, Ok a) => let '(n2, r) := k a (h ++ n1) in (n1 ++ n2, r)
    | (n1, Err e) => (n1, Err e)
    | (n1, Panic) => (n1, Panic)
    end.

Definition lift {R A} (m : result A) : M R A := fun _ => ([], m).

(** [if err := output(r); err != nil { return ..., err }] *)
Definition emit {R} (output : Sink R) (r : R) : M R unit :=
  fun h =>
    ([r],
     match output h r with
     | None => Ok tt
     | Some e => Err e
     end).

Definition wrapM {R A} (prefix : string) (m : M R A) : M R A :=
  fun h => let '(n, r) := m h in (n, wrapErr prefix r).

Notation "x <- m ;; k" := (bind m (fun x => k))
  (at level 100, m at next level, right associativity).

(** [for ... { body }] over the elements of [l], threading the loop's
    variables [s]; an error return or a panic in the body leaves the loop. *)
Fixpoint forEach {R A S} (body : A -> S -> M R S) (l : list A) (s : S) : M R S :=
  match l with
  | [] => ret s
  | x :: l' => s' <- body x s ;; forEach body l' s'
  end.

Fixpoint forEachR {A S} (body : A -> S -> result S) (l : list A) (s : S) : result S :=
  match l with
  | [] => Ok s
  | x :: l' => s' <-? body x s ;; forEachR body l' s'
  end.

(** [convenience]: the callback that appends to a slice and returns nil. *)
Definition stateNodeAppender {R} : Sink R := fun _ _ => None.
Definition storageNodeAppender {R} : Sink R := fun _ _ => None.

(** *** Bytes, hashes, hexadecimal *)

Definition Hash := bytes.
Definition Address := bytes.
Definition HashLength : nat := 32.

Definition hextable : string := "0123456789abcdef".

Definition hexDigit (n : N) : Ascii.ascii :=
  default Ascii.zero (String.get (N.to_nat n) hextable).

(** [common.Bytes2Hex], which is [hex.EncodeToString]. *)
Fixpoint Bytes2Hex (d : bytes) : string :=
  match d with
  | [] => ""
  | b :: d' =>
      String (hexDigit (Byte.to_N b / 16))
        (String (hexDigit (Byte.to_N b mod 16)) (Bytes2Hex d'))
  end.

(** [common.BytesToHash]: the last 32 bytes, padded with zeros on the left. *)
Definition BytesToHash (b : bytes) : Hash :=
  let b' := drop (length b - HashLength) b in
  replicate (HashLength - length b') x00 ++ b'.

(** [bytes.Equal] *)
Definition bytes_Equal (a b : bytes) : bool := bool_decide (a = b).

Definition CRLF : string :=
  String (Ascii.ascii_of_nat 13) (String (Ascii.ascii_of_nat 10) "").

(** ** The data model *)

Module sdtypes.
(** [sdtypes.NodeType] is a string type with five named constants;
    [NoType] is its zero value, the empty string. *)
Inductive NodeType := NoType | Unknown | Leaf | Extension | Branch | Removed.

Definition String (ty : NodeType) : string :=
  match ty with
  | NoType => ""
  | Unknown => "Unknown"
  | Leaf => "Leaf"
  | Extension => "Extension"
  | Branch => "Branch"
  | Removed => "Removed"
  end.

Record StorageNode := {
  sto_NodeType : NodeType;
  sto_Path : bytes;
  sto_NodeValue : bytes;
  sto_LeafKey : bytes }.

Record StateNode := {
  NodeType_ : NodeType;
  Path : bytes;
  NodeValue : bytes;
  LeafKey : bytes;
  StorageNodes : list StorageNode }.
End sdtypes.
Import sdtypes.

#[global] Instance NodeType_eq_dec : EqDecision NodeType.
Proof. solve_decision. Defined.

(** [state.Account] *)
Record Account := {
  Nonce : Z;
  Balance : Z;
  Root : Hash;
  CodeHash : bytes }.

(** [accountWrapper]; [Account] is a pointer, nil in the zero value. *)
Record accountWrapper := {
  aw_Account : option Account;
  aw_NodeType : NodeType;
  aw_Path : bytes;
  aw_NodeValue : bytes;
  aw_LeafKey : bytes }.

Definition zeroAccountWrapper : accountWrapper :=
  {| aw_Account := None; aw_NodeType := NoType; aw_Path := [];
     aw_NodeValue := []; aw_LeafKey := [] |}.

Abbreviation AccountMap := (gmap string accountWrapper).

(** [m[key]] on a Go map: the zero value when the key is absent. *)
Definition mapIndex (m : AccountMap) (key : string) : accountWrapper :=
  default zeroAccountWrapper (m !! key).

Record CodeAndCodeHash := {
  cc_Hash : Hash;
  cc_Code : bytes }.

Record Params := {
  IntermediateStateNodes : bool;
  IntermediateStorageNodes : bool;
  WatchedAddresses : list Address;
  WatchedStorageSlots : list Hash }.

Record StateRoots := {
  OldStateRoot : Hash;
  NewStateRoot : Hash }.

Record Args := {
  args_OldStateRoot : Hash;
  args_NewStateRoot : Hash;
  args_BlockHash : Hash;
  args_BlockNumber : option Z }.

Record StateObject := {
  so_BlockNumber : option Z;
  so_BlockHash : Hash;
  so_Nodes : list StateNode;
  so_CodeAndCodeHashes : list CodeAndCodeHash }.

(** [StateObject{}] *)
Definition zeroStateObject : StateObject :=
  {| so_BlockNumber := None; so_BlockHash := replicate HashLength x00;
     so_Nodes := []; so_CodeAndCodeHashes := [] |}.

(** ** Collaborators *)

(** A decoded RLP value, as [rlp.DecodeBytes] stores it in an [interface{}]:
    a byte string or a list. *)
#[local] Unset Elimination Schemes.
Inductive rlpItem :=
| RBytes (b : bytes)
| RList (l : list rlpItem).
#[local] Set Elimination Schemes.

(** The position of a [trie.NodeIterator] after a successful [Next]. *)
Record iterPos := {
  it_Hash : Hash;
  it_Path : bytes;
  it_Leaf : bool;
  it_LeafBlob : bytes }.

(** A [trie.NodeIterator] is the sequence of positions that [Next(true)]
    walks through before it returns false, and the [Error()] it then
    reports. *)
Record NodeIterator := {
  positions : list iterPos;
  it_Error : option error }.

Record Trie := {
  trie_NodeIterator : bytes -> NodeIterator }.

(** [state.Database], the builder's [stateCache]. *)
Record Database := {
  OpenTrie : Hash -> error + Trie;
  TrieDB_Node : Hash -> error + bytes;
  ContractCode : Hash -> Hash -> error + bytes }.

(** The codecs and the hash function the builder imports, and the one part
    of the difference iterator on which the specification is silent. *)
Record Codec := {
  Keccak256 : bytes -> bytes;
  DecodeElements : bytes -> error + list rlpItem;
  DecodeAccount : bytes -> error + Account;
  CheckKeyType : list rlpItem -> error + NodeType;
  CompactToHex : bytes -> bytes;
  HexToCompact : bytes -> bytes;
  differenceError : NodeIterator -> NodeIterator -> option error }.

#[global] Instance iterPos_eq_dec : EqDecision iterPos.
Proof. solve_decision. Defined.

(** Modelled from the spec: [trie.NewDifferenceIterator], of package
    [trie].  "[diff_iter(a, b)] yields exactly the nodes visited by
    [b] whose (path, hash) pair does not also appear at the same path in
    [a]"; "embedded (hashless) sub-nodes are compared by encoded bytes".
    Two positions are the same when path, hash, leaf flag and embedded bytes
    agree. *)
Definition NewDifferenceIterator (cd : Codec) (a b : NodeIterator) : NodeIterator :=
  {| positions :=
       filter (fun p => p ∉ positions a) (positions b);
     it_Error := differenceError cd a b |}.

(** Modelled from the spec: [sortKeys], declared outside [builder.go].  It
    collects the keys of an account map, "sorted lexicographically". *)
Definition sortKeys (data : AccountMap) : list string :=
  merge_sort String.le (map_to_list data).*1.

(** Modelled from the spec: [findIntersection], declared outside
    [builder.go].  "updated = keys(diffA) ∩ keys(diffB)", in the order of its
    sorted arguments. *)
Definition findIntersection (a b : list string) : list string :=
  filter (fun k => k ∈ b) a.

(** ** The builder *)

Definition nullHashBytes : bytes := replicate 32 x00.

(** [rlp.EncodeToBytes([]byte{})]: the encoding of the empty string. *)
Definition emptyNode : bytes := [x80].

(** [nodeElements[i].([]byte)]: panics when the index is out of range or the
    element is not a byte string. *)
Definition elemBytes (nodeElements : list rlpItem) (i : nat) : result bytes :=
  match nodeElements !! i with
  | Some (RBytes b) => Ok b
  | _ => Panic
  end.

(** [isWatchedStorageKey] *)
Definition isWatchedStorageKey (watchedKeys : list Hash) (storageLeafKey : bytes) : bool :=
  if decide (length watchedKeys = 0) then true
  else existsb (fun hashKey => bytes_Equal hashKey storageLeafKey) watchedKeys.

Definition removedStorageNode (nodePath : bytes) : StorageNode :=
  {| sto_NodeType := Removed; sto_Path := nodePath; sto_NodeValue := [];
     sto_LeafKey := [] |}.

Definition removedStateNode (nodePath : bytes) : StateNode :=
  {| Path := nodePath; NodeValue := []; NodeType_ := Removed;
     LeafKey := []; StorageNodes := [] |}.

Definition unexpectedNodeType {A} (ty : NodeType) : result A :=
  Err ("unexpected node type " +:+ sdtypes.String ty).

Section Builder.
Context (db : Database) (cd : Codec).

(** The order in which [for _, val := range accounts] visits an account
    map; Go does not specify it. *)
Context (rangeAccounts : AccountMap -> list (string * accountWrapper)).

Definition emptyContractRoot : Hash := BytesToHash (Keccak256 cd emptyNode).
Definition nullCodeHash : bytes := BytesToHash (Keccak256 cd []).

(** [isWatchedAddress] *)
Definition isWatchedAddress (watchedAddresses : list Address) (stateLeafKey : bytes) : bool :=
  if decide (length watchedAddresses = 0) then true
  else existsb (fun addr => bytes_Equal (Keccak256 cd addr) stateLeafKey)
         watchedAddresses.

(** The three steps every loop of the builder performs on a node:
    [TrieDB().Node(it.Hash())], [rlp.DecodeBytes(node, &nodeElements)] and
    [CheckKeyType(nodeElements)]. *)
Definition readNode (h : Hash) : result (bytes * list rlpItem * NodeType) :=
  node <-? call (TrieDB_Node db h) ;;
  nodeElements <-? call (DecodeElements cd node) ;;
  ty <-? call (CheckKeyType cd nodeElements) ;;
  Ok (node, nodeElements, ty).

(** [rlp.DecodeBytes(nodeElements[1].([]byte), &account)] *)
Definition decodeAccount (nodePath : bytes) (nodeElements : list rlpItem) : result Account :=
  e1 <-? elemBytes nodeElements 1 ;;
  wrapErr ("error decoding account for leaf node at path "
             +:+ Bytes2Hex nodePath +:+ " nerror: ")
    (call (DecodeAccount cd e1)).

(** [partialPath], [valueNodePath], [encodedPath] and [leafKey] of a leaf. *)
Definition leafKeyOf (nodePath : bytes) (nodeElements : list rlpItem) : result bytes :=
  e0 <-? elemBytes nodeElements 0 ;;
  let partialPath := CompactToHex cd e0 in
  let valueNodePath := nodePath ++ partialPath in
  let encodedPath := HexToCompact cd valueNodePath in
  match encodedPath with
  | [] => Panic
  | _ :: leafKey => Ok leafKey
  end.

(** *** Storage tries *)

Definition buildStorageNodesFromTrie_body (watchedStorageKeys : list Hash)
    (intermediateNodes : bool) (output : Sink StorageNode)
    (p : iterPos) (_ : unit) : M StorageNode unit :=
  if it_Leaf p then ret tt
  else if bytes_Equal nullHashBytes (it_Hash p) then ret tt
  else
    let nodePath := it_Path p in
    r <- lift (readNode (it_Hash p)) ;;
    let '(node, nodeElements, ty) := r in
    match ty with
    | Leaf =>
        leafKey <- lift (leafKeyOf nodePath nodeElements) ;;
        if isWatchedStorageKey watchedStorageKeys leafKey then
          emit output {| sto_NodeType := ty; sto_Path := nodePath;
                         sto_NodeValue := node; sto_LeafKey := leafKey |}
        else ret tt
    | Extension | Branch =>
        if intermediateNodes then
          emit output {| sto_NodeType := ty; sto_Path := nodePath;
                         sto_NodeValue := node; sto_LeafKey := [] |}
        else ret tt
    | _ => lift (unexpectedNodeType ty)
    end.

Definition buildStorageNodesFromTrie (it : NodeIterator)
    (watchedStorageKeys : list Hash) (intermediateNodes : bool)
    (output : Sink StorageNode) : M StorageNode unit :=
  _ <- forEach (buildStorageNodesFromTrie_body watchedStorageKeys
                  intermediateNodes output) (positions it) tt ;;
  lift (match it_Error it with Some e => Err e | None => Ok tt end).

Definition buildStorageNodesEventual (sr : Hash) (watchedStorageKeys : list Hash)
    (intermediateNodes : bool) (output : Sink StorageNode) : M StorageNode unit :=
  if bytes_Equal sr emptyContractRoot then ret tt
  else
    sTrie <- lift (call (OpenTrie db sr)) ;;
    let it := trie_NodeIterator sTrie [] in
    buildStorageNodesFromTrie it watchedStorageKeys intermediateNodes output.

Definition createdAndUpdatedStorage_body (watchedKeys : list Hash)
    (intermediateNodes : bool) (output : Sink StorageNode)
    (p : iterPos) (diffPathsAtB : gmap string bool) : M StorageNode (gmap string bool) :=
  if it_Leaf p then ret diffPathsAtB
  else if bytes_Equal nullHashBytes (it_Hash p) then ret diffPathsAtB
  else
    let nodePath := it_Path p in
    r <- lift (readNode (it_Hash p)) ;;
    let '(node, nodeElements, ty) := r in
    _ <- match ty with
         | Leaf =>
             leafKey <- lift (leafKeyOf nodePath nodeElements) ;;
             if isWatchedStorageKey watchedKeys leafKey then
               emit output {| sto_NodeType := ty; sto_Path := nodePath;
                              sto_NodeValue := node; sto_LeafKey := leafKey |}
             else ret tt
         | Extension | Branch =>
             if intermediateNodes then
               emit output {| sto_NodeType := ty; sto_Path := nodePath;
                              sto_NodeValue := node; sto_LeafKey := [] |}
             else ret tt
         | _ => lift (unexpectedNodeType ty)
         end ;;
    ret (<[Bytes2Hex nodePath := true]> diffPathsAtB).

Definition createdAndUpdatedStorage (a b : NodeIterator) (watchedKeys : list Hash)
    (intermediateNodes : bool) (output : Sink StorageNode)
    : M StorageNode (gmap string bool) :=
  let it := NewDifferenceIterator cd a b in
  diffPathsAtB <- forEach (createdAndUpdatedStorage_body watchedKeys
                             intermediateNodes output) (positions it) ∅ ;;
  lift (match it_Error it with Some e => Err e | None => Ok diffPathsAtB end).

Definition deletedOrUpdatedStorage_body (diffPathsAtB : gmap string bool)
    (watchedKeys : list Hash) (intermediateNodes : bool)
    (output : Sink StorageNode) (p : iterPos) (_ : unit) : M StorageNode unit :=
  if it_Leaf p then ret tt
  else if bytes_Equal nullHashBytes (it_Hash p) then ret tt
  else
    let nodePath := it_Path p in
    match diffPathsAtB !! Bytes2Hex nodePath with
    | Some _ => ret tt
    | None =>
        r <- lift (readNode (it_Hash p)) ;;
        let '(node, nodeElements, ty) := r in
        match ty with
        | Leaf =>
            leafKey <- lift (leafKeyOf nodePath nodeElements) ;;
            if isWatchedStorageKey watchedKeys leafKey then
              emit output (removedStorageNode nodePath)
            else ret tt
        | Extension | Branch =>
            if intermediateNodes then
              emit output (removedStorageNode nodePath)
            else ret tt
        | _ => lift (unexpectedNodeType ty)
        end
    end.

Definition deletedOrUpdatedStorage (a b : NodeIterator)
    (diffPathsAtB : gmap string bool) (watchedKeys : list Hash)
    (intermediateNodes : bool) (output : Sink StorageNode) : M StorageNode unit :=
  let it := NewDifferenceIterator cd b a in
  _ <- forEach (deletedOrUpdatedStorage_body diffPathsAtB watchedKeys
                  intermediateNodes output) (positions it) tt ;;
  lift (match it_Error it with Some e => Err e | None => Ok tt end).

Definition buildStorageNodesIncremental (oldSR newSR : Hash)
    (watchedStorageKeys : list Hash) (intermediateNodes : bool)
    (output : Sink StorageNode) : M StorageNode unit :=
  if bytes_Equal newSR oldSR then ret tt
  else
    oldTrie <- lift (call (OpenTrie db oldSR)) ;;
    newTrie <- lift (call (OpenTrie db newSR)) ;;
    diffPathsAtB <- createdAndUpdatedStorage
                      (trie_NodeIterator oldTrie []) (trie_NodeIterator newTrie [])
                      watchedStorageKeys intermediateNodes output ;;
    deletedOrUpdatedStorage
      (trie_NodeIterator oldTrie []) (trie_NodeIterator newTrie [])
      diffPathsAtB watchedStorageKeys intermediateNodes output.

(** *** The state trie *)

Definition wrapAccount (ty : NodeType) (nodePath node leafKey : bytes)
    (account : Account) : accountWrapper :=
  {| aw_NodeType := ty; aw_Path := nodePath; aw_NodeValue := node;
     aw_LeafKey := leafKey; aw_Account := Some account |}.

Definition createdAndUpdatedState_body (watchedAddresses : list Address)
    (p : iterPos) (st : AccountMap * gmap string bool)
    : result (AccountMap * gmap string bool) :=
  let '(diffAcountsAtB, diffPathsAtB) := st in
  if it_Leaf p then Ok st
  else if bytes_Equal nullHashBytes (it_Hash p) then Ok st
  else
    let nodePath := it_Path p in
    r <-? readNode (it_Hash p) ;;
    let '(node, nodeElements, ty) := r in
    diffAcountsAtB' <-?
      (if decide (ty = Leaf) then
         account <-? decodeAccount nodePath nodeElements ;;
         leafKey <-? leafKeyOf nodePath nodeElements ;;
         if isWatchedAddress watchedAddresses leafKey then
           Ok (<[Bytes2Hex leafKey :=
                   wrapAccount ty nodePath node leafKey account]> diffAcountsAtB)
         else Ok diffAcountsAtB
       else Ok diffAcountsAtB) ;;
    Ok (diffAcountsAtB', <[Bytes2Hex nodePath := true]> diffPathsAtB).

Definition createdAndUpdatedState (a b : NodeIterator)
    (watchedAddresses : list Address) : result (AccountMap * gmap string bool) :=
  let it := NewDifferenceIterator cd a b in
  st <-? forEachR (createdAndUpdatedState_body watchedAddresses)
           (positions it) (∅, ∅) ;;
  match it_Error it with
  | Some e => Err e
  | None => Ok st
  end.

Definition createdAndUpdatedStateWithIntermediateNodes_body
    (output : Sink StateNode) (p : iterPos) (st : AccountMap * gmap string bool)
    : M StateNode (AccountMap * gmap string bool) :=
  let '(diffAcountsAtB, diffPathsAtB) := st in
  if it_Leaf p then ret st
  else if bytes_Equal nullHashBytes (it_Hash p) then ret st
  else
    let nodePath := it_Path p in
    r <- lift (readNode (it_Hash p)) ;;
    let '(node, nodeElements, ty) := r in
    diffAcountsAtB' <-
      match ty with
      | Leaf =>
          account <- lift (decodeAccount nodePath nodeElements) ;;
          leafKey <- lift (leafKeyOf nodePath nodeElements) ;;
          ret (<[Bytes2Hex leafKey :=
                   wrapAccount ty nodePath node leafKey account]> diffAcountsAtB)
      | Extension | Branch =>
          _ <- emit output {| NodeType_ := ty; Path := nodePath;
                              NodeValue := node; LeafKey := [];
                              StorageNodes := [] |} ;;
          ret diffAcountsAtB
      | _ => lift (unexpectedNodeType ty)
      end ;;
    ret (diffAcountsAtB', <[Bytes2Hex nodePath := true]> diffPathsAtB).

Definition createdAndUpdatedStateWithIntermediateNodes (a b : NodeIterator)
    (output : Sink StateNode) : M StateNode (AccountMap * gmap string bool) :=
  let it := NewDifferenceIterator cd a b in
  st <- forEach (createdAndUpdatedStateWithIntermediateNodes_body output)
          (positions it) (∅, ∅) ;;
  lift (match it_Error it with Some e => Err e | None => Ok st end).

Definition deletedOrUpdatedState_body (diffPathsAtB : gmap string bool)
    (output : Sink StateNode) (p : iterPos) (diffAccountAtA : AccountMap)
    : M StateNode AccountMap :=
  if it_Leaf p then ret diffAccountAtA
  else if bytes_Equal nullHashBytes (it_Hash p) then ret diffAccountAtA
  else
    let nodePath := it_Path p in
    _ <- match diffPathsAtB !! Bytes2Hex nodePath with
         | None => emit output (removedStateNode nodePath)
         | Some _ => ret tt
         end ;;
    r <- lift (readNode (it_Hash p)) ;;
    let '(node, nodeElements, ty) := r in
    match ty with
    | Leaf =>
        account <- lift (decodeAccount nodePath nodeElements) ;;
        leafKey <- lift (leafKeyOf nodePath nodeElements) ;;
        ret (<[Bytes2Hex leafKey :=
                 wrapAccount ty nodePath node leafKey account]> diffAccountAtA)
    | Extension | Branch => ret diffAccountAtA
    | _ => lift (unexpectedNodeType ty)
    end.

Definition deletedOrUpdatedState (a b : NodeIterator)
    (diffPathsAtB : gmap string bool) (output : Sink StateNode)
    : M StateNode AccountMap :=
  let it := NewDifferenceIterator cd b a in
  diffAccountAtA <- forEach (deletedOrUpdatedState_body diffPathsAtB output)
                      (positions it) ∅ ;;
  lift (match it_Error it with Some e => Err e | None => Ok diffAccountAtA end).

(** The storage diff of one updated account, collected by
    [storageNodeAppender(&storageDiffs)]. *)
Definition updateStorageDiffs (key : string) (createdAcc deletedAcc : accountWrapper)
    (watchedStorageKeys : list Hash) (intermediateStorageNodes : bool)
    : result (list StorageNode) :=
  match aw_Account deletedAcc, aw_Account createdAcc with
  | Some deleted, Some created =>
      let oldSR := Root deleted in
      let newSR := Root created in
      let '(storageDiffs, err) :=
        buildStorageNodesIncremental oldSR newSR watchedStorageKeys
          intermediateStorageNodes storageNodeAppender [] in
      _ <-? wrapErr ("failed building incremental storage diffs for account with leafkey "
                       +:+ key +:+ CRLF +:+ "error: ") err ;;
      Ok storageDiffs
  | _, _ => Ok []
  end.

Definition buildAccountUpdates_body (watchedStorageKeys : list Hash)
    (intermediateStorageNodes : bool) (output : Sink StateNode)
    (key : string) (maps : AccountMap * AccountMap)
    : M StateNode (AccountMap * AccountMap) :=
  let '(creations, deletions) := maps in
  let createdAcc := mapIndex creations key in
  let deletedAcc := mapIndex deletions key in
  storageDiffs <- lift (updateStorageDiffs key createdAcc deletedAcc
                          watchedStorageKeys intermediateStorageNodes) ;;
  _ <- emit output {| NodeType_ := aw_NodeType createdAcc;
                      Path := aw_Path createdAcc;
                      NodeValue := aw_NodeValue createdAcc;
                      LeafKey := aw_LeafKey createdAcc;
                      StorageNodes := storageDiffs |} ;;
  ret (delete key creations, delete key deletions).

(** [buildAccountUpdates] mutates the two maps it is given; the model
    returns them as they are after the loop. *)
Definition buildAccountUpdates (creations deletions : AccountMap)
    (updatedKeys : list string) (watchedStorageKeys : list Hash)
    (intermediateStorageNodes : bool) (output : Sink StateNode)
    : M StateNode (AccountMap * AccountMap) :=
  forEach (buildAccountUpdates_body watchedStorageKeys intermediateStorageNodes output)
    updatedKeys (creations, deletions).

(** The storage nodes and the code of one created account: nothing for an
    account whose code hash is [nullCodeHash]. *)
Definition creationStorageAndCode (val : accountWrapper) (account : Account)
    (watchedStorageKeys : list Hash) (intermediateStorageNodes : bool)
    (codeAndCodeHashes : list CodeAndCodeHash)
    : result (list StorageNode * list CodeAndCodeHash) :=
  if negb (bytes_Equal (CodeHash account) nullCodeHash) then
    let '(storageDiffs, err) :=
      buildStorageNodesEventual (Root account) watchedStorageKeys
        intermediateStorageNodes storageNodeAppender [] in
    _ <-? wrapErr ("failed building eventual storage diffs for node "
                     +:+ Bytes2Hex (aw_Path val) +:+ CRLF +:+ "error: ") err ;;
    let codeHash := BytesToHash (CodeHash account) in
    code <-? wrapErr ("failed to retrieve code for codehash 0x"
                        +:+ Bytes2Hex codeHash +:+ CRLF +:+ " error: ")
               (call (ContractCode db (replicate HashLength x00) codeHash)) ;;
    Ok (storageDiffs, codeAndCodeHashes ++ [{| cc_Hash := codeHash; cc_Code := code |}])
  else Ok ([], codeAndCodeHashes).

Definition buildAccountCreations_body (watchedStorageKeys : list Hash)
    (intermediateStorageNodes : bool) (output : Sink StateNode)
    (entry : string * accountWrapper) (codeAndCodeHashes : list CodeAndCodeHash)
    : M StateNode (list CodeAndCodeHash) :=
  let val := entry.2 in
  account <- lift (match aw_Account val with
                   | Some account => Ok account
                   | None => Panic
                   end) ;;
  r <- lift (creationStorageAndCode val account watchedStorageKeys
               intermediateStorageNodes codeAndCodeHashes) ;;
  _ <- emit output {| NodeType_ := aw_NodeType val; Path := aw_Path val;
                      LeafKey := aw_LeafKey val; NodeValue := aw_NodeValue val;
                      StorageNodes := r.1 |} ;;
  ret r.2.

Definition buildAccountCreations (accounts : AccountMap)
    (watchedStorageKeys : list Hash) (intermediateStorageNodes : bool)
    (output : Sink StateNode) : M StateNode (list CodeAndCodeHash) :=
  forEach (buildAccountCreations_body watchedStorageKeys intermediateStorageNodes output)
    (rangeAccounts accounts) [].

(** Pass 3, as both variants of the state diff perform it. *)
Definition reconcile (diffAccountsAtB diffAccountsAtA : AccountMap)
    (params : Params) (output : Sink StateNode) : M StateNode (list CodeAndCodeHash) :=
  let createKeys := sortKeys diffAccountsAtB in
  let deleteKeys := sortKeys diffAccountsAtA in
  let updatedKeys := findIntersection createKeys deleteKeys in
  maps <- wrapM "error building diff for updated accounts: "
            (buildAccountUpdates diffAccountsAtB diffAccountsAtA updatedKeys
               (WatchedStorageSlots params) (IntermediateStorageNodes params) output) ;;
  wrapM "error building diff for created accounts: "
    (buildAccountCreations maps.1 (WatchedStorageSlots params)
       (IntermediateStorageNodes params) output).

Definition openTries (args : StateRoots) : result (Trie * Trie) :=
  oldTrie <-? wrapErr "error creating trie for oldStateRoot: "
                (call (OpenTrie db (OldStateRoot args))) ;;
  newTrie <-? wrapErr "error creating trie for newStateRoot: "
                (call (OpenTrie db (NewStateRoot args))) ;;
  Ok (oldTrie, newTrie).

Definition buildStateDiffWithIntermediateStateNodes (args : StateRoots)
    (params : Params) (output : Sink StateNode) : M StateNode (list CodeAndCodeHash) :=
  tries <- lift (openTries args) ;;
  let '(oldTrie, newTrie) := tries in
  st <- wrapM "error collecting createdAndUpdatedNodes: "
          (createdAndUpdatedStateWithIntermediateNodes
             (trie_NodeIterator oldTrie []) (trie_NodeIterator newTrie []) output) ;;
  let '(diffAccountsAtB, diffPathsAtB) := st in
  diffAccountsAtA <- wrapM "error collecting deletedOrUpdatedNodes: "
                       (deletedOrUpdatedState
                          (trie_NodeIterator oldTrie []) (trie_NodeIterator newTrie [])
                          diffPathsAtB output) ;;
  reconcile diffAccountsAtB diffAccountsAtA params output.

Definition buildStateDiffWithoutIntermediateStateNodes (args : StateRoots)
    (params : Params) (output : Sink StateNode) : M StateNode (list CodeAndCodeHash) :=
  tries <- lift (openTries args) ;;
  let '(oldTrie, newTrie) := tries in
  st <- lift (wrapErr "error collecting createdAndUpdatedNodes: "
                (createdAndUpdatedState
                   (trie_NodeIterator oldTrie []) (trie_NodeIterator newTrie [])
                   (WatchedAddresses params))) ;;
  let '(diffAccountsAtB, diffPathsAtB) := st in
  diffAccountsAtA <- wrapM "error collecting deletedOrUpdatedNodes: "
                       (deletedOrUpdatedState
                          (trie_NodeIterator oldTrie []) (trie_NodeIterator newTrie [])
                          diffPathsAtB output) ;;
  reconcile diffAccountsAtB diffAccountsAtA params output.

(** [WriteStateDiffObject] *)
Definition WriteStateDiffObject (args : StateRoots) (params : Params)
    (output : Sink StateNode) : M StateNode (list CodeAndCodeHash) :=
  if negb (IntermediateStateNodes params)
     || bool_decide (0 < length (WatchedAddresses params)) then
    buildStateDiffWithoutIntermediateStateNodes args params output
  else
    buildStateDiffWithIntermediateStateNodes args params output.

(** [BuildStateDiffObject] returns a [StateObject] and an error ([None] is
    nil); the outer [None] is a panic. *)
Definition BuildStateDiffObject (args : Args) (params : Params)
    : option (StateObject * option error) :=
  let '(stateNodes, r) :=
    WriteStateDiffObject
      {| OldStateRoot := args_OldStateRoot args;
         NewStateRoot := args_NewStateRoot args |}
      params stateNodeAppender [] in
  match r with
  | Err err => Some (zeroStateObject, Some err)
  | Ok codeAndCodeHashes =>
      Some ({| so_BlockHash := args_BlockHash args;
               so_BlockNumber := args_BlockNumber args;
               so_Nodes := stateNodes;
               so_CodeAndCodeHashes := codeAndCodeHashes |}, None)
  | Panic => None
  end.

End Builder.

(** ** A small store for examples

  Two versions of a world state with one and two accounts, a contract with
  one storage slot, and stand-ins for the codecs: enough to run the builder
  on concrete tries. *)
Module TestStore.

Definition byteOfN (n : N) : byte := default x00 (Byte.of_N n).

(** Modelled from the spec: the compact (hex-prefix) encoding of the trie
    package, "preserving the even/odd length and leaf/extension flags in
    the first nibble"; a nibble string ends in the terminator 16 when it
    is the key of a leaf. *)
Definition keybytesToHex (str : bytes) : bytes :=
  flat_map (fun b => [byteOfN (Byte.to_N b / 16); byteOfN (Byte.to_N b mod 16)]) str
    ++ [x10].

Definition hasTerm (s : bytes) : bool :=
  bool_decide (last s = Some x10).

Definition compactToHex (compact : bytes) : bytes :=
  match compact with
  | [] => []
  | _ =>
      let base := keybytesToHex compact in
      let b0 := Byte.to_N (default x00 (head base)) in
      let base := if (b0 <? 2)%N then take (length base - 1) base else base in
      let chop := (2 - N.land b0 1)%N in
      drop (N.to_nat chop) base
  end.

Fixpoint decodeNibbles (nibbles : bytes) : bytes :=
  match nibbles with
  | a :: b :: rest =>
      byteOfN (Byte.to_N a * 16 + Byte.to_N b) :: decodeNibbles rest
  | _ => []
  end.

Definition hexToCompact (hex : bytes) : bytes :=
  let terminator := if hasTerm hex then 1%N else 0%N in
  let hex := if hasTerm hex then take (length hex - 1) hex else hex in
  if Nat.odd (length hex) then
    byteOfN (terminator * 32 + 16 + Byte.to_N (default x00 (head hex)))
      :: decodeNibbles (drop 1 hex)
  else byteOfN (terminator * 32) :: decodeNibbles hex.

(** Modelled from the spec: [CheckKeyType], declared outside
    [builder.go].  "Require a 2- or 17-element list.  For 17 elements: Branch.  For
    2 elements, inspect the first element's first byte: high nibble in
    {0, 1}: Extension; high nibble in {2, 3}: Leaf; otherwise error". *)
Definition checkKeyType (elements : list rlpItem) : error + NodeType :=
  if decide (length elements = 17) then inr Branch
  else if decide (length elements = 2) then
    match elements with
    | RBytes (b :: _) :: _ =>
        match (Byte.to_N b / 16)%N with
        | 0%N | 1%N => inr Extension
        | 2%N | 3%N => inr Leaf
        | _ => inl "unknown hex prefix"
        end
    | _ => inl "unknown hex prefix"
    end
  else inl "node cannot be less than two elements in length".

(** A stand-in for RLP: every element of a node is a byte string preceded
    by its length. *)
Definition encodeItems (items : list bytes) : bytes :=
  flat_map (fun e => byteOfN (N.of_nat (length e)) :: e) items.

Fixpoint decodeItems (fuel : nat) (b : bytes) : error + list rlpItem :=
  match b, fuel with
  | [], _ => inr []
  | _, 0 => inl "rlp: input too long"
  | n :: rest, S fuel' =>
      let len := N.to_nat (Byte.to_N n) in
      if decide (len <= length rest) then
        match decodeItems fuel' (drop len rest) with
        | inr l => inr (RBytes (take len rest) :: l)
        | inl e => inl e
        end
      else inl "rlp: value size exceeds available input length"
  end.

(** A stand-in for the encoding of an account: nonce and balance in one
    byte each, then the storage root and the code hash. *)
Definition encodeAccount (a : Account) : bytes :=
  [byteOfN (Z.to_N (Nonce a)); byteOfN (Z.to_N (Balance a))] ++ Root a ++ CodeHash a.

Definition decodeAccount (b : bytes) : error + Account :=
  match b with
  | n :: bal :: rest =>
      if decide (length rest = 64) then
        inr {| Nonce := Z.of_N (Byte.to_N n); Balance := Z.of_N (Byte.to_N bal);
               Root := take 32 rest; CodeHash := drop 32 rest |}
      else inl "rlp: input string too short for state.Account"
  | _ => inl "rlp: input string too short for state.Account"
  end.

(** A stand-in for Keccak-256: the input cut or padded with zeros to 32
    bytes. *)
Definition testHash (b : bytes) : bytes := take 32 (b ++ replicate 32 x00).

Definition testCodec : Codec :=
  {| Keccak256 := testHash;
     DecodeElements := fun b => decodeItems (length b) b;
     DecodeAccount := decodeAccount;
     CheckKeyType := checkKeyType;
     CompactToHex := compactToHex;
     HexToCompact := hexToCompact;
     differenceError := fun a b =>
       match it_Error a with Some e => Some e | None => it_Error b end |}.

Fixpoint assoc {V} (k : bytes) (l : list (bytes * V)) : option V :=
  match l with
  | [] => None
  | (k', v) :: l' => if decide (k = k') then Some v else assoc k l'
  end.

Definition hashOf (n : byte) : Hash := replicate 31 x00 ++ [n].
Definition zeroHash : Hash := replicate 32 x00.

(** Two account keys that differ in their first nibble, and the addresses
    that [testHash] maps to them. *)
Definition addr1 : Address := x10 :: replicate 19 x00.
Definition addr2 : Address := x20 :: replicate 19 x00.
Definition key1 : bytes := x10 :: replicate 31 x00.
Definition key2 : bytes := x20 :: replicate 31 x00.
Definition key3 : bytes := x30 :: replicate 31 x00.

Definition emptyRoot : Hash := emptyContractRoot testCodec.
Definition noCode : bytes := nullCodeHash testCodec.

Definition storageRoot : Hash := hashOf x51.
Definition codeHash1 : Hash := hashOf xc1.
Definition code1 : bytes := [x60; x00].

Definition plain100 : Account :=
  {| Nonce := 1; Balance := 100; Root := emptyRoot; CodeHash := noCode |}.
Definition plain200 : Account :=
  {| Nonce := 1; Balance := 200; Root := emptyRoot; CodeHash := noCode |}.
Definition plain7 : Account :=
  {| Nonce := 0; Balance := 7; Root := emptyRoot; CodeHash := noCode |}.
(** An account without code whose storage trie is not empty. *)
Definition hoard : Account :=
  {| Nonce := 0; Balance := 0; Root := storageRoot; CodeHash := noCode |}.
Definition contract : Account :=
  {| Nonce := 1; Balance := 0; Root := storageRoot; CodeHash := codeHash1 |}.
(** A contract whose code is missing from the store. *)
Definition orphan : Account :=
  {| Nonce := 1; Balance := 0; Root := emptyRoot; CodeHash := hashOf xc2 |}.

(** Leaf nodes: at the root the whole key is the leaf's own path (even
    length, flag byte 0x20); below the root branch the first nibble is
    consumed (odd length, flag nibble 3). *)
Definition rootLeaf (key : bytes) (a : Account) : bytes :=
  encodeItems [x20 :: key; encodeAccount a].
Definition childLeaf (a : Account) : bytes :=
  encodeItems [x30 :: replicate 31 x00; encodeAccount a].
Definition branchOf (children : list bytes) : bytes :=
  encodeItems (children ++ [[]]).

Definition slotKey : bytes := x03 :: replicate 31 x00.
Definition storageLeaf : bytes := encodeItems [x20 :: slotKey; [x2a]].

Definition nodes : list (Hash * bytes) :=
  [ (hashOf x01, rootLeaf key1 plain100);
    (hashOf x02, branchOf ([[]; hashOf x03; hashOf x04] ++ replicate 13 []));
    (hashOf x03, childLeaf plain200);
    (hashOf x04, childLeaf plain7);
    (hashOf x05, rootLeaf key1 hoard);
    (hashOf x06, rootLeaf key2 contract);
    (hashOf x07, rootLeaf key3 orphan);
    (hashOf x51, storageLeaf) ].

Definition structural (h : Hash) (path : bytes) : iterPos :=
  {| it_Hash := h; it_Path := path; it_Leaf := false; it_LeafBlob := [] |}.
Definition value (path blob : bytes) : iterPos :=
  {| it_Hash := zeroHash; it_Path := path; it_Leaf := true; it_LeafBlob := blob |}.

Definition walk (ps : list iterPos) : Trie :=
  {| trie_NodeIterator := fun _ => {| positions := ps; it_Error := None |} |}.

Definition tries : list (Hash * Trie) :=
  [ (emptyRoot, walk []);
    (hashOf x01,
      walk [structural (hashOf x01) [];
            value (keybytesToHex key1) (encodeAccount plain100)]);
    (hashOf x02,
      walk [structural (hashOf x02) [];
            structural (hashOf x03) [x01];
            value (keybytesToHex key1) (encodeAccount plain200);
            structural (hashOf x04) [x02];
            value (keybytesToHex key2) (encodeAccount plain7)]);
    (hashOf x05,
      walk [structural (hashOf x05) [];
            value (keybytesToHex key1) (encodeAccount hoard)]);
    (hashOf x06,
      walk [structural (hashOf x06) [];
            value (keybytesToHex key2) (encodeAccount contract)]);
    (hashOf x07,
      walk [structural (hashOf x07) [];
            value (keybytesToHex key3) (encodeAccount orphan)]);
    (storageRoot,
      walk [structural (hashOf x51) [];
            value (keybytesToHex slotKey) [x2a]]) ].

Definition testDb : Database :=
  {| OpenTrie := fun root =>
       match assoc root tries with
       | Some t => inr t
       | None => inl "missing trie node"
       end;
     TrieDB_Node := fun h =>
       match assoc h nodes with
       | Some b => inr b
       | None => inl "not found"
       end;
     ContractCode := fun _ codeHash =>
       if decide (codeHash = codeHash1) then inr code1 else inl "not found" |}.

(** Two orders in which a [range] may visit an account map. *)
Definition keyLe (x y : string * accountWrapper) : Prop := String.le x.1 y.1.

#[global] Instance keyLe_dec : RelDecision keyLe.
Proof. intros x y. unfold keyLe. apply _. Defined.

Definition rangeAscending (m : AccountMap) : list (string * accountWrapper) :=
  merge_sort keyLe (map_to_list m).
Definition rangeDescending (m : AccountMap) : list (string * accountWrapper) :=
  reverse (merge_sort keyLe (map_to_list m)).

Definition params0 : Params :=
  {| IntermediateStateNodes := false; IntermediateStorageNodes := false;
     WatchedAddresses := []; WatchedStorageSlots := [] |}.

Definition roots (old new : Hash) : StateRoots :=
  {| OldStateRoot := old; NewStateRoot := new |}.

(** The iterator over the trie at a root. *)
Definition iterOf (root : Hash) : NodeIterator :=
  match assoc root tries with
  | Some t => trie_NodeIterator t []
  | None => {| positions := []; it_Error := None |}
  end.


(** The account maps of Pass 1 and of Pass 2 between two roots. *)
Definition pass1Accounts (old new : Hash) : AccountMap :=
  match createdAndUpdatedState testDb testCodec (iterOf old) (iterOf new) [] with
  | Ok (accounts, _) => accounts
  | _ => ∅
  end.

Definition pass1Paths (old new : Hash) : gmap string bool :=
  match createdAndUpdatedState testDb testCodec (iterOf old) (iterOf new) [] with
  | Ok (_, paths) => paths
  | _ => ∅
  end.

Definition pass2Accounts (old new : Hash) : AccountMap :=
  match (deletedOrUpdatedState testDb testCodec (iterOf old) (iterOf new)
           (pass1Paths old new) stateNodeAppender []).2 with
  | Ok accounts => accounts
  | _ => ∅
  end.

Definition watching (addrs : list Address) : Params :=
  {| IntermediateStateNodes := true; IntermediateStorageNodes := true;
     WatchedAddresses := addrs; WatchedStorageSlots := [] |}.

(** A callback that refuses every record. *)
Definition closedSink : Sink StateNode := fun _ _ => Some "sink closed".

End TestStore.

(** ** Vocabulary of the statements *)

(** A position on which the loops act: not a value node, and not the
    all-zeros hash of an embedded node. *)
Definition structuralNode (p : iterPos) : Prop :=
  it_Leaf p = false /\ nullHashBytes <> it_Hash p.

#[global] Instance structuralNode_dec p : Decision (structuralNode p).
Proof. unfold structuralNode. apply _. Defined.

Definition removedHere (diffPathsAtB : gmap string bool) (p : iterPos) : Prop :=
  structuralNode p /\ diffPathsAtB !! Bytes2Hex (it_Path p) = None.

#[global] Instance removedHere_dec m p : Decision (removedHere m p).
Proof. unfold removedHere. apply _. Defined.

(** The type the store gives for the node at a position, and the key of a
    leaf there. *)
Definition nodeTypeAt (db : Database) (cd : Codec) (p : iterPos) : option NodeType :=
  match readNode db cd (it_Hash p) with
  | Ok (_, _, ty) => Some ty
  | _ => None
  end.

Definition leafKeyAt (db : Database) (cd : Codec) (p : iterPos) : option bytes :=
  match readNode db cd (it_Hash p) with
  | Ok (_, nodeElements, _) =>
      match leafKeyOf cd (it_Path p) nodeElements with
      | Ok leafKey => Some leafKey
      | _ => None
      end
  | _ => None
  end.

(** The rule of the A-side pass of the incremental storage diff: a leaf
    counts when its key passes the watch filter, an extension or a branch
    when intermediate storage nodes are asked for. *)
Definition storageRemovalRule (db : Database) (cd : Codec) (watchedKeys : list Hash)
    (intermediateNodes : bool) (p : iterPos) : bool :=
  match nodeTypeAt db cd p with
  | Some Leaf =>
      match leafKeyAt db cd p with
      | Some leafKey => isWatchedStorageKey watchedKeys leafKey
      | None => false
      end
  | Some Extension | Some Branch => intermediateNodes
  | _ => false
  end.

(** What a caller of a function that returns [([]CodeAndCodeHash, error)]
    receives as the list: every error return of the builder is
    [return nil, err]. *)
Definition returnedList {A} (r : result (list A)) : option (list A) :=
  match r with
  | Ok l => Some l
  | Err _ => Some []
  | Panic => None
  end.


(** A [range] over a map visits every entry once. *)
Definition rangeOrder (rangeAccounts : AccountMap -> list (string * accountWrapper)) : Prop :=
  forall m, rangeAccounts m ≡ₚ map_to_list m.

(** What Pass 1 guarantees of the accounts it records: every account is a
    leaf with its account decoded, stored under the hexadecimal form of its
    leaf key, and its leaf key passes the filter of the watched addresses. *)
Definition recorded (cd : Codec) (watchedAddresses : list Address)
    (k : string) (w : accountWrapper) : Prop :=
  k = Bytes2Hex (aw_LeafKey w) /\ aw_NodeType w = Leaf /\
  is_Some (aw_Account w) /\
  isWatchedAddress cd watchedAddresses (aw_LeafKey w) = true.

(** The account maps that Pass 1 returns, in either variant. *)
Inductive fromPass1 (db : Database) (cd : Codec) (diffAccountsAtB : AccountMap) : Prop :=
| fromCreatedAndUpdatedState a b watchedAddresses diffPathsAtB :
  createdAndUpdatedState db cd a b watchedAddresses
    = Ok (diffAccountsAtB, diffPathsAtB) ->
  fromPass1 db cd diffAccountsAtB
| fromWithIntermediateNodes a b output h diffPathsAtB :
  (createdAndUpdatedStateWithIntermediateNodes db cd a b output h).2
    = Ok (diffAccountsAtB, diffPathsAtB) ->
  fromPass1 db cd diffAccountsAtB.

(** A record that may be written when addresses are watched: no extension,
    no branch, and a leaf only for the hash of a watched address. *)
Definition watchedOnly (cd : Codec) (watchedAddresses : list Address)
    (r : StateNode) : Prop :=
  NodeType_ r <> Extension /\ NodeType_ r <> Branch /\
  (NodeType_ r = Leaf ->
   exists addr, addr ∈ watchedAddresses /\ LeafKey r = Keccak256 cd addr).

(** [hex(leaf_key)] of a record. *)
Definition leafKeyHex (r : StateNode) : string := Bytes2Hex (LeafKey r).

(** The leaf that [buildAccountCreations] writes for an entry of the map:
    the storage nodes of the eventual walk when the account has code, none
    otherwise. *)
Definition createdLeaf (db : Database) (cd : Codec) (watchedStorageKeys : list Hash)
    (intermediateStorageNodes : bool) (val : accountWrapper) : StateNode :=
  {| NodeType_ := aw_NodeType val; Path := aw_Path val;
     LeafKey := aw_LeafKey val; NodeValue := aw_NodeValue val;
     StorageNodes :=
       match aw_Account val with
       | Some account =>
           if bytes_Equal (CodeHash account) (nullCodeHash cd) then []
           else (buildStorageNodesEventual db cd (Root account) watchedStorageKeys
                   intermediateStorageNodes storageNodeAppender []).1
       | None => []
       end |}.

(** The pair that [buildAccountCreations] appends for an entry of the map:
    one when the account has code, none otherwise. *)
Definition createdCode (db : Database) (cd : Codec) (val : accountWrapper)
    : list CodeAndCodeHash :=
  match aw_Account val with
  | Some account =>
      if bytes_Equal (CodeHash account) (nullCodeHash cd) then []
      else
        match ContractCode db (replicate HashLength x00)
                (BytesToHash (CodeHash account)) with
        | inr code => [{| cc_Hash := BytesToHash (CodeHash account); cc_Code := code |}]
        | inl _ => []
        end
  | None => []
  end.

(** The leaf that [buildAccountUpdates] writes for a key, and the maps it
    leaves behind. *)
Definition updatedLeaf (db : Database) (cd : Codec) (watchedStorageKeys : list Hash)
    (intermediateStorageNodes : bool) (key : string) (maps : AccountMap * AccountMap)
    : StateNode :=
  let createdAcc := mapIndex maps.1 key in
  let deletedAcc := mapIndex maps.2 key in
  {| NodeType_ := aw_NodeType createdAcc; Path := aw_Path createdAcc;
     NodeValue := aw_NodeValue createdAcc; LeafKey := aw_LeafKey createdAcc;
     StorageNodes :=
       match updateStorageDiffs db cd key createdAcc deletedAcc
               watchedStorageKeys intermediateStorageNodes with
       | Ok storageDiffs => storageDiffs
       | _ => []
       end |}.

Definition deleteKey (key : string) (maps : AccountMap * AccountMap)
    : AccountMap * AccountMap :=
  (delete key maps.1, delete key maps.2).

(** What a run has written, by type, path, leaf key and number of storage
    nodes, and what it has returned. *)
Definition summary (run : list StateNode * result (list CodeAndCodeHash))
    : list (NodeType * string * string * nat) * result (list CodeAndCodeHash) :=
  (map (fun r => (NodeType_ r, Bytes2Hex (Path r), leafKeyHex r,
                  length (StorageNodes r))) run.1,
   run.2).

(** The bytes the store gives for the node at a position. *)
Definition nodeValueAt (db : Database) (cd : Codec) (p : iterPos) : bytes :=
  match readNode db cd (it_Hash p) with
  | Ok (node, _, _) => node
  | _ => []
  end.

(** The storage record that the walks over a storage trie write for a
    position: the node as the store has it, with its key when it is a leaf. *)
Definition storageNodeAt (db : Database) (cd : Codec) (p : iterPos) : StorageNode :=
  {| sto_NodeType := default NoType (nodeTypeAt db cd p);
     sto_Path := it_Path p;
     sto_NodeValue := nodeValueAt db cd p;
     sto_LeafKey :=
       match nodeTypeAt db cd p with
       | Some Leaf => default [] (leafKeyAt db cd p)
       | _ => []
       end |}.

(** A position whose node the storage walks write: a structural node that
    [storageRemovalRule], the rule of all three storage loops, lets pass. *)
Definition storageWritten (db : Database) (cd : Codec) (watchedKeys : list Hash)
    (intermediateNodes : bool) (p : iterPos) : Prop :=
  structuralNode p /\
  storageRemovalRule db cd watchedKeys intermediateNodes p = true.

#[global] Instance storageWritten_dec db cd ws isn p :
  Decision (storageWritten db cd ws isn p).
Proof. unfold storageWritten. apply _. Defined.

(** [pathsOf l paths]: the map [paths] holds exactly the paths, in
    hexadecimal, of the structural nodes among the positions [l], each with
    the value true. *)
Definition pathsOf (l : list iterPos) (paths : gmap string bool) : Prop :=
  forall k v, paths !! k = Some v <->
    v = true /\ exists p, p ∈ l /\ structuralNode p /\ k = Bytes2Hex (it_Path p).

(** What the B-side passes do to the set of paths at a position. *)
Definition markPath (p : iterPos) (paths : gmap string bool) : gmap string bool :=
  if decide (structuralNode p) then <[Bytes2Hex (it_Path p) := true]> paths else paths.

(** A storage callback that refuses every record. *)
Definition refusingStorageSink : Sink StorageNode := fun _ _ => Some "storage sink closed".

(** What the filters of the storage walks allow: no intermediate node unless
    asked for, and, when keys are watched, leaves of watched keys only. *)
Definition storageFiltered (ws : list Hash) (isn : bool) (r : StorageNode) : Prop :=
  (isn = false -> sto_NodeType r <> Extension /\ sto_NodeType r <> Branch) /\
  (ws <> [] -> sto_NodeType r = Leaf -> sto_LeafKey r ∈ ws).

(** An account recorded by Pass 1 sits at a path that Pass 1 has marked. *)
Definition anchored (paths : gmap string bool) (k : string) (w : accountWrapper) : Prop :=
  paths !! Bytes2Hex (aw_Path w) = Some true.

(** A record of one of the two intermediate types. *)
Definition intermediateNode (r : StateNode) : Prop :=
  NodeType_ r = Extension \/ NodeType_ r = Branch.

(** ** A second store, with a storage trie of two slots *)

Definition slotLeaf : bytes :=
  TestStore.encodeItems [x30 :: replicate 31 x00; [x2a]].

Definition storageRoot2 : Hash := TestStore.hashOf x52.

Definition nodes2 : list (Hash * bytes) :=
  [ (TestStore.hashOf x52,
      TestStore.branchOf
        ([[]; []; []; TestStore.hashOf x53; TestStore.hashOf x54] ++ replicate 11 []));
    (TestStore.hashOf x53, slotLeaf);
    (TestStore.hashOf x54, slotLeaf) ].

Definition tries2 : list (Hash * Trie) :=
  [ (storageRoot2,
      TestStore.walk
        [ TestStore.structural (TestStore.hashOf x52) [];
          TestStore.structural (TestStore.hashOf x53) [x03];
          TestStore.value (TestStore.keybytesToHex (x30 :: replicate 31 x00)) [x2a];
          TestStore.structural (TestStore.hashOf x54) [x04];
          TestStore.value (TestStore.keybytesToHex (x40 :: replicate 31 x00)) [x2a] ]) ].

Definition testDb2 : Database :=
  {| OpenTrie := fun root =>
       match TestStore.assoc root (tries2 ++ TestStore.tries) with
       | Some t => inr t
       | None => inl "missing trie node"
       end;
     TrieDB_Node := fun h =>
       match TestStore.assoc h (nodes2 ++ TestStore.nodes) with
       | Some b => inr b
       | None => inl "not found"
       end;
     ContractCode := ContractCode TestStore.testDb |}.

(** The leaf that the storage walks write for the single slot of
    [TestStore.storageRoot]. *)
Definition slotRecord : StorageNode :=
  {| sto_NodeType := Leaf; sto_Path := [];
     sto_NodeValue := TestStore.storageLeaf; sto_LeafKey := TestStore.slotKey |}.

(** ** Properties of computations *)

Section Predicates.
Context {R : Type}.

(** [records Q Φ m]: every record that [m] hands to its callback satisfies
    [Q], and a value that [m] returns satisfies [Φ]. *)
Definition records {A} (Q : R -> Prop) (Φ : A -> Prop) (m : M R A) : Prop :=
  forall h, Forall Q (m h).1 /\ forall a, (m h).2 = Ok a -> Φ a.

(** The records of a loop whose body hands over [f x s] and moves the
    loop's variables from [s] to [g x s]. *)
Fixpoint emitted {A S} (f : A -> S -> list R) (g : A -> S -> S)
    (l : list A) (s : S) : list R :=
  match l with
  | [] => []
  | x :: l' => f x s ++ emitted f g l' (g x s)
  end.

(** A step of the loop either hands over [f x s], or fails before it has
    handed over anything. *)
Definition step {A S} (f : A -> S -> list R) (g : A -> S -> S)
    (body : A -> S -> M R S) : Prop :=
  forall x s h,
    ((body x s h).1 = f x s \/
     ((body x s h).1 = [] /\ forall s', (body x s h).2 <> Ok s')) /\
    forall s', (body x s h).2 = Ok s' -> s' = g x s.

(** The discipline of a failing callback.
    [obeys output ctxs m]: when [output] refuses a record, [m] hands over
    nothing more and returns the callback's error, behind one of the
    prefixes [ctxs]. *)
Definition obeys {A} (output : Sink R) (ctxs : list string) (m : M R A) : Prop :=
  forall h pre x post e,
    (m h).1 = pre ++ x :: post -> output (h ++ pre) x = Some e ->
    post = [] /\ exists ctx, ctx ∈ ctxs /\ (m h).2 = Err (ctx +:+ e).

End Predicates.

(** * Reasoning about computations *)


Section Computations.
Context {R : Type}.

Lemma records_ret {A} (Q : R -> Prop) (Φ : A -> Prop) a :
  Φ a -> records Q Φ (ret a).
Proof. intros Ha h; split; [constructor | intros a' [= <-]; exact Ha]. Qed.

Lemma records_lift {A} (Q : R -> Prop) (Φ : A -> Prop) (r : result A) :
  (forall a, r = Ok a -> Φ a) -> records Q Φ (lift r).
Proof. intros Hr h; split; [constructor | exact Hr]. Qed.

Lemma records_emit (Q : R -> Prop) (Φ : unit -> Prop) output r :
  Q r -> Φ tt -> records Q Φ (emit output r).
Proof.
  intros Hq Hphi h; split; [repeat constructor; exact Hq |].
  intros []; intros _; exact Hphi.
Qed.

Lemma records_bind {A B} (Q : R -> Prop) (Φ : A -> Prop) (Ψ : B -> Prop)
    (m : M R A) (k : A -> M R B) :
  records Q Φ m -> (forall a, Φ a -> records Q Ψ (k a)) ->
  records Q Ψ (bind m k).
Proof.
  intros Hm Hk h. destruct (Hm h) as [Hq Hphi]. unfold bind.
  destruct (m h) as [n1 [a| e |]]; simpl in *; try (split; [exact Hq | discriminate]).
  destruct (Hk a (Hphi a eq_refl) (h ++ n1)) as [Hq2 Hpsi].
  destruct (k a (h ++ n1)) as [n2 r]; simpl in *.
  split; [apply Forall_app; split; assumption | exact Hpsi].
Qed.

Lemma records_wrapM {A} (Q : R -> Prop) (Φ : A -> Prop) prefix (m : M R A) :
  records Q Φ m -> records Q Φ (wrapM prefix m).
Proof.
  intros Hm h. destruct (Hm h) as [Hq Hphi]. unfold wrapM.
  destruct (m h) as [n [a| e |]]; simpl in *; split; auto; discriminate.
Qed.

Lemma records_forEach {A S} (Q : R -> Prop) (I : S -> Prop)
    (body : A -> S -> M R S) (l : list A) :
  (forall x s, x ∈ l -> I s -> records Q I (body x s)) ->
  forall s, I s -> records Q I (forEach body l s).
Proof.
  induction l as [| x l IH]; intros Hbody s Hs; simpl.
  - apply records_ret, Hs.
  - apply records_bind with (Φ := I).
    + apply Hbody; [left | exact Hs].
    + intros s' Hs'. apply IH; [| exact Hs'].
      intros y t Hy. apply Hbody. right. exact Hy.
Qed.

Lemma emitted_flat_map {A S} (f : A -> list R) (g : A -> S -> S) l s :
  emitted (fun x _ => f x) g l s = flat_map f l.
Proof. revert s; induction l as [| x l IH]; intros s; simpl; [| rewrite IH]; reflexivity. Qed.

Lemma forEach_emitted {A S} (f : A -> S -> list R) (g : A -> S -> S)
    (body : A -> S -> M R S) :
  step f g body ->
  forall l s h, exists visited rest,
    l = visited ++ rest /\
    (forEach body l s h).1 = emitted f g visited s /\
    forall s', (forEach body l s h).2 = Ok s' ->
               rest = [] /\ s' = foldl (fun s x => g x s) s l.
Proof.
  intros Hstep l. induction l as [| x l IH]; intros s h.
  - exists [], []. simpl. repeat split; congruence.
  - destruct (Hstep x s h) as [Hnew Hst]. simpl. unfold bind.
    destruct (body x s h) as [n1 [s1 | e |]] eqn:Hb; simpl in *.
    + destruct Hnew as [-> | [_ Hno]]; [| destruct (Hno s1 eq_refl)].
      pose proof (Hst s1 eq_refl) as ->.
      destruct (IH (g x s) (h ++ f x s)) as (visited & rest & -> & Hn & Hok).
      destruct (forEach body (visited ++ rest) (g x s) (h ++ f x s)) as [n2 r].
      simpl in *. exists (x :: visited), rest. simpl.
      split; [reflexivity |]. split; [congruence | exact Hok].
    + destruct Hnew as [-> | [-> _]].
      * exists [x], l. simpl. rewrite app_nil_r. repeat split; discriminate.
      * exists [], (x :: l). simpl. repeat split; discriminate.
    + destruct Hnew as [-> | [-> _]].
      * exists [x], l. simpl. rewrite app_nil_r. repeat split; discriminate.
      * exists [], (x :: l). simpl. repeat split; discriminate.
Qed.

(** A loop followed by the check of the iterator's error. *)
Lemma bind_lift_fst {A B} (m : M R A) (k : A -> result B) h :
  (bind m (fun a => lift (k a)) h).1 = (m h).1.
Proof.
  unfold bind, lift. destruct (m h) as [n [a | e |]]; simpl; auto using app_nil_r.
Qed.

Lemma bind_lift_snd {A B} (m : M R A) (k : A -> result B) h b :
  (bind m (fun a => lift (k a)) h).2 = Ok b ->
  exists a, (m h).2 = Ok a /\ k a = Ok b.
Proof.
  unfold bind, lift. destruct (m h) as [n [a | e |]]; simpl; try discriminate.
  intros Hk. exists a. auto.
Qed.

Lemma obeys_ret {A} (output : Sink R) ctxs (a : A) : obeys output ctxs (ret a).
Proof. intros h pre x post e H. destruct pre; discriminate. Qed.

Lemma obeys_lift {A} (output : Sink R) ctxs (r : result A) : obeys output ctxs (lift r).
Proof. intros h pre x post e H. destruct pre; discriminate. Qed.

Lemma obeys_emit (output : Sink R) r : obeys output [""] (emit output r).
Proof.
  intros h pre x post e H Hout. unfold emit in *. simpl in *.
  destruct pre as [| y pre]; simpl in H.
  - injection H as <- <-. rewrite app_nil_r in Hout. rewrite Hout.
    split; [reflexivity |]. exists "". split; [left | reflexivity].
  - destruct pre; discriminate.
Qed.

Lemma obeys_bind {A B} (output : Sink R) ctxs (m : M R A) (k : A -> M R B) :
  obeys output ctxs m -> (forall a, obeys output ctxs (k a)) ->
  obeys output ctxs (bind m k).
Proof.
  intros Hm Hk h pre x post e. specialize (Hm h). unfold bind.
  destruct (m h) as [n1 [a | e1 |]]; simpl in *;
    [| intros Heq Hout;
       destruct (Hm pre x post e Heq Hout) as [-> (ctx & Hin & Hr)];
       split; [reflexivity |]; exists ctx; split; [exact Hin | congruence] ..].
  specialize (Hk a (h ++ n1)).
  destruct (k a (h ++ n1)) as [n2 r]; simpl in *.
  intros Heq Hout. apply app_eq_app in Heq as [l [[-> Hl] | [-> Hl]]].
  - destruct l as [| y l]; simpl in Hl.
    + rewrite app_nil_r in *. subst n2.
      apply (Hk [] x post e); [reflexivity | rewrite app_nil_r; exact Hout].
    + injection Hl as Hx Hpost. subst y.
      destruct (Hm pre x l e eq_refl Hout) as [_ (ctx & _ & Hctx)].
      discriminate.
  - subst n2. apply (Hk l x post e); [reflexivity |].
    rewrite <- app_assoc. exact Hout.
Qed.



Lemma obeys_forEach {A S} (output : Sink R) ctxs (body : A -> S -> M R S) l :
  (forall x s, obeys output ctxs (body x s)) ->
  forall s, obeys output ctxs (forEach body l s).
Proof.
  intros Hbody. induction l as [| x l IH]; intros s; simpl.
  - apply obeys_ret.
  - apply obeys_bind; [apply Hbody | exact IH].
Qed.

End Computations.

Section Loops.
Context {R : Type}.

(** The same for a body whose records do not depend on the loop's
    variables. *)
Lemma forEach_flat_map {A S} (f : A -> list R) (body : A -> S -> M R S) :
  (forall x s h,
      (body x s h).1 = f x \/
      ((body x s h).1 = [] /\ forall s', (body x s h).2 <> Ok s')) ->
  forall l s h, exists visited rest,
    l = visited ++ rest /\
    (forEach body l s h).1 = flat_map f visited /\
    forall s', (forEach body l s h).2 = Ok s' -> rest = [].
Proof.
  intros Hstep l. induction l as [| x l IH]; intros s h.
  - exists [], []. simpl. repeat split.
  - specialize (Hstep x s h). simpl. unfold bind.
    destruct (body x s h) as [n1 [s1 | e |]] eqn:Hb; simpl in *.
    + destruct Hstep as [-> | [_ Hno]]; [| destruct (Hno s1 eq_refl)].
      destruct (IH s1 (h ++ f x)) as (visited & rest & -> & Hn & Hok).
      destruct (forEach body (visited ++ rest) s1 (h ++ f x)) as [n2 r].
      simpl in *. exists (x :: visited), rest. simpl.
      split; [reflexivity |]. split; [congruence | exact Hok].
    + destruct Hstep as [-> | [-> _]].
      * exists [x], l. simpl. rewrite app_nil_r. repeat split; discriminate.
      * exists [], (x :: l). simpl. repeat split; discriminate.
    + destruct Hstep as [-> | [-> _]].
      * exists [x], l. simpl. rewrite app_nil_r. repeat split; discriminate.
      * exists [], (x :: l). simpl. repeat split; discriminate.
Qed.

Lemma flat_map_filter {A} (P : A -> Prop) `{forall x, Decision (P x)}
    (rec : A -> R) (l : list A) :
  flat_map (fun x => if decide (P x) then [rec x] else []) l
  = map rec (filter P l).
Proof.
  induction l as [| x l IH]; simpl; [reflexivity |].
  rewrite filter_cons. destruct (decide (P x)); simpl; congruence.
Qed.
End Loops.

(** Unfolds the monad and splits on every test of the body of a loop. *)
Ltac run_body :=
  unfold bind, lift, ret, emit, wrapM, rbind, unexpectedNodeType in *; simpl in *;
  repeat (case_match; simpl in *; simplify_eq);
  rewrite ?app_nil_r in *.

(** * Pass 2 of the state diff *)

Section Pass2.
Context (db : Database) (cd : Codec).

Lemma deletedOrUpdatedState_body_records diffPathsAtB output p s h :
  (deletedOrUpdatedState_body db cd diffPathsAtB output p s h).1
  = if decide (removedHere diffPathsAtB p)
    then [removedStateNode (it_Path p)] else [].
Proof.
  unfold deletedOrUpdatedState_body, removedHere, structuralNode, bytes_Equal.
  destruct (decide _) as [[[Hl Hh] Hp] | Hn].
  - rewrite Hl, Hp. rewrite bool_decide_eq_false_2 by exact Hh.
    run_body; reflexivity.
  - destruct (it_Leaf p) eqn:Hl; [reflexivity |].
    case_bool_decide as Hh; [reflexivity |].
    destruct (diffPathsAtB !! Bytes2Hex (it_Path p)) eqn:Hp.
    + run_body; reflexivity.
    + destruct Hn. auto.
Qed.

Lemma deletedOrUpdatedState_trace
    (a b : NodeIterator) (diffPathsAtB : gmap string bool)
    (output : Sink StateNode) (h : list StateNode) :
  exists visited rest,
    positions (NewDifferenceIterator cd b a) = visited ++ rest /\
    (deletedOrUpdatedState db cd a b diffPathsAtB output h).1
    = map (fun p => removedStateNode (it_Path p))
        (filter (removedHere diffPathsAtB) visited) /\
    forall diffAccountAtA,
      (deletedOrUpdatedState db cd a b diffPathsAtB output h).2 = Ok diffAccountAtA ->
      rest = [].
Proof.
  unfold deletedOrUpdatedState.
  destruct (forEach_flat_map
              (fun p => if decide (removedHere diffPathsAtB p)
                        then [removedStateNode (it_Path p)] else [])
              (deletedOrUpdatedState_body db cd diffPathsAtB output)
              (fun p s h' => or_introl (deletedOrUpdatedState_body_records _ _ p s h'))
              (positions (NewDifferenceIterator cd b a)) ∅ h)
    as (visited & rest & Hpos & Hrec & Hok).
  exists visited, rest. split; [exact Hpos |]. split.
  - rewrite bind_lift_fst, Hrec, flat_map_filter. reflexivity.
  - intros m Hm. apply bind_lift_snd in Hm as (s' & Hs' & _). eauto.
Qed.

End Pass2.

(** * The A-side pass of the incremental storage diff *)

Section StoragePass.
Context (db : Database) (cd : Codec).

Lemma deletedOrUpdatedStorage_body_records diffPathsAtB watchedKeys
    intermediateNodes output p s h :
  (deletedOrUpdatedStorage_body db cd diffPathsAtB watchedKeys intermediateNodes
     output p s h).1
  = if decide (removedHere diffPathsAtB p /\
               storageRemovalRule db cd watchedKeys intermediateNodes p = true)
    then [removedStorageNode (it_Path p)] else [].
Proof.
  unfold deletedOrUpdatedStorage_body, bytes_Equal.
  destruct (decide _) as [[[[Hl Hh] Hp] Hrule] | Hn].
  - rewrite Hl, Hp. rewrite bool_decide_eq_false_2 by exact Hh.
    unfold storageRemovalRule, nodeTypeAt, leafKeyAt in Hrule.
    unfold bind, lift, emit, ret, unexpectedNodeType.
    repeat (case_match; simpl in *; simplify_eq); reflexivity.
  - destruct (it_Leaf p) eqn:Hl; [reflexivity |].
    case_bool_decide as Hh; [reflexivity |].
    destruct (diffPathsAtB !! Bytes2Hex (it_Path p)) eqn:Hp; [reflexivity |].
    assert (storageRemovalRule db cd watchedKeys intermediateNodes p = false) as Hrule.
    { apply not_true_is_false. intros Ht. apply Hn.
      unfold removedHere, structuralNode. auto. }
    unfold storageRemovalRule, nodeTypeAt, leafKeyAt in Hrule.
    unfold bind, lift, emit, ret, unexpectedNodeType.
    repeat (case_match; simpl in *; simplify_eq); reflexivity.
Qed.

End StoragePass.

(** * The test store *)

Lemma rangeAscending_order : rangeOrder TestStore.rangeAscending.
Proof. intros m. apply merge_sort_Permutation. Qed.

Lemma rangeDescending_order : rangeOrder TestStore.rangeDescending.
Proof.
  intros m. unfold TestStore.rangeDescending.
  rewrite reverse_Permutation. apply merge_sort_Permutation.
Qed.

(** * Errors *)

Section Errors.
Context (db : Database) (cd : Codec).
Context (rangeAccounts : AccountMap -> list (string * accountWrapper)).

(** C8.  When [BuildStateDiffObject] returns an error, of whatever kind,
    the [StateObject] it returns with it is the empty value: no nodes, no
    code-and-codehash entries, no block number and the zero block hash. *)
Theorem C8_BuildStateDiffObject_error_empty
    (args : Args) (params : Params) (so : StateObject) (err : error) :
  BuildStateDiffObject db cd rangeAccounts args params = Some (so, Some err) ->
  so = zeroStateObject /\
  so_Nodes so = [] /\ so_CodeAndCodeHashes so = [] /\
  so_BlockNumber so = None /\ so_BlockHash so = replicate HashLength x00.
Proof.
  unfold BuildStateDiffObject.
  destruct (WriteStateDiffObject _ _ _ _ _ _ _) as [stateNodes [codes | e |]];
    intros H; simplify_eq. repeat split.
Qed.










End Errors.



Lemma C8_witness :
  let args := {| args_OldStateRoot := TestStore.hashOf x02;
                 args_NewStateRoot := TestStore.hashOf x07;
                 args_BlockHash := TestStore.hashOf xbb;
                 args_BlockNumber := Some 9%Z |} in
  (WriteStateDiffObject TestStore.testDb TestStore.testCodec TestStore.rangeAscending
     (TestStore.roots (TestStore.hashOf x02) (TestStore.hashOf x07))
     TestStore.params0 stateNodeAppender []).1 <> [] /\
  exists so err,
    BuildStateDiffObject TestStore.testDb TestStore.testCodec TestStore.rangeAscending
      args TestStore.params0 = Some (so, Some err) /\
    so = zeroStateObject /\
    so_Nodes so = [] /\ so_CodeAndCodeHashes so = [] /\
    so_BlockNumber so = None /\ so_BlockHash so = replicate HashLength x00.
Proof.
  intros args. split; [vm_compute; discriminate |].
  assert (exists so err,
             BuildStateDiffObject TestStore.testDb TestStore.testCodec
               TestStore.rangeAscending args TestStore.params0 = Some (so, Some err))
    as (so & err & H) by (vm_compute; do 2 eexists; reflexivity).
  exists so, err. split; [exact H |].
  exact (C8_BuildStateDiffObject_error_empty _ _ _ _ _ _ _ H).
Defined.

(** * A state compared with itself *)

Section SameRoot.
Context (db : Database) (cd : Codec).
Context (rangeAccounts : AccountMap -> list (string * accountWrapper)).

Lemma filter_not_elem_of_nil (l l' : list iterPos) :
  l ⊆ l' -> filter (fun p => p ∉ l') l = [].
Proof.
  induction l as [| p l IH]; intros Hsub; [reflexivity |].
  rewrite filter_cons. destruct (decide (p ∉ l')) as [Hn | _].
  - destruct Hn. apply Hsub. left.
  - apply IH. intros q Hq. apply Hsub. right. exact Hq.
Qed.

Lemma difference_self (a : NodeIterator) :
  positions (NewDifferenceIterator cd a a) = [].
Proof. apply filter_not_elem_of_nil. reflexivity. Qed.

Lemma createdAndUpdatedState_self a watchedAddresses :
  createdAndUpdatedState db cd a a watchedAddresses
  = match differenceError cd a a with
    | Some e => Err e
    | None => Ok (∅, ∅)
    end.
Proof.
  unfold createdAndUpdatedState. cbv zeta. rewrite difference_self. reflexivity.
Qed.

Lemma createdAndUpdatedStateWithIntermediateNodes_self a output h :
  createdAndUpdatedStateWithIntermediateNodes db cd a a output h
  = ([], match differenceError cd a a with
         | Some e => Err e
         | None => Ok (∅, ∅)
         end).
Proof.
  unfold createdAndUpdatedStateWithIntermediateNodes. cbv zeta.
  rewrite difference_self. reflexivity.
Qed.

Lemma deletedOrUpdatedState_self a diffPathsAtB output h :
  deletedOrUpdatedState db cd a a diffPathsAtB output h
  = ([], match differenceError cd a a with
         | Some e => Err e
         | None => Ok ∅
         end).
Proof.
  unfold deletedOrUpdatedState. cbv zeta. rewrite difference_self. reflexivity.
Qed.

Lemma sortKeys_empty : sortKeys ∅ = [].
Proof. unfold sortKeys. rewrite map_to_list_empty. reflexivity. Qed.

Lemma reconcile_empty params output h :
  rangeOrder rangeAccounts ->
  reconcile db cd rangeAccounts ∅ ∅ params output h = ([], Ok []).
Proof.
  intros Hrange. unfold reconcile. rewrite sortKeys_empty. simpl.
  unfold buildAccountCreations, bind, wrapM, ret. simpl.
  specialize (Hrange ∅). rewrite map_to_list_empty in Hrange.
  apply Permutation_nil_r in Hrange. rewrite Hrange. reflexivity.
Qed.

(** C5.  For every root [R] and all parameters, [WriteStateDiffObject] with
    the old and the new root both [R] hands no record to the callback, and
    the list of code and code hashes that it returns is empty. *)
Theorem C5_same_root_emits_nothing
    (Hrange : rangeOrder rangeAccounts)
    (R : Hash) (params : Params) (output : Sink StateNode) (h : list StateNode) :
  (WriteStateDiffObject db cd rangeAccounts
     {| OldStateRoot := R; NewStateRoot := R |} params output h).1 = [] /\
  returnedList
    (WriteStateDiffObject db cd rangeAccounts
       {| OldStateRoot := R; NewStateRoot := R |} params output h).2 = Some [].
Proof.
  unfold WriteStateDiffObject,
    buildStateDiffWithoutIntermediateStateNodes,
    buildStateDiffWithIntermediateStateNodes, openTries.
  simpl. destruct (_ || _); destruct (OpenTrie db R) as [e | t]; simpl;
    try (split; reflexivity);
    unfold bind, lift, wrapM; simpl;
    rewrite ?createdAndUpdatedState_self,
      ?createdAndUpdatedStateWithIntermediateNodes_self;
    destruct (differenceError cd _ _) as [e |] eqn:He; simpl;
    try (split; reflexivity);
    rewrite deletedOrUpdatedState_self, He; simpl;
    rewrite (reconcile_empty _ _ _ Hrange); split; reflexivity.
Qed.

End SameRoot.

Lemma C5_witness :
  rangeOrder TestStore.rangeDescending /\
  (WriteStateDiffObject TestStore.testDb TestStore.testCodec TestStore.rangeDescending
     {| OldStateRoot := TestStore.hashOf x02; NewStateRoot := TestStore.hashOf x02 |}
     TestStore.params0 TestStore.closedSink []).1 = [] /\
  returnedList
    (WriteStateDiffObject TestStore.testDb TestStore.testCodec TestStore.rangeDescending
       {| OldStateRoot := TestStore.hashOf x02; NewStateRoot := TestStore.hashOf x02 |}
       TestStore.params0 TestStore.closedSink []).2 = Some [].
Proof.
  split; [exact rangeDescending_order |].
  exact (C5_same_root_emits_nothing TestStore.testDb TestStore.testCodec
           TestStore.rangeDescending rangeDescending_order
           (TestStore.hashOf x02) TestStore.params0 TestStore.closedSink []).
Defined.

(** * Pass 1 of the state diff *)

Section LoopInvariants.

Lemma forEachR_inv {A S} (I : S -> Prop) (body : A -> S -> result S) (l : list A) :
  (forall x s s', I s -> body x s = Ok s' -> I s') ->
  forall s s', I s -> forEachR body l s = Ok s' -> I s'.
Proof.
  intros Hbody. induction l as [| x l IH]; intros s s' Hs; simpl.
  - intros [= <-]. exact Hs.
  - destruct (body x s) as [s1 | e |] eqn:Hb; simpl; try discriminate.
    apply IH. eapply Hbody; eauto.
Qed.

Lemma forEachR_each {A S} (Q : A -> S -> Prop) (body : A -> S -> result S) (l : list A) :
  (forall x s s', body x s = Ok s' -> Q x s') ->
  (forall x y s s', Q x s -> body y s = Ok s' -> Q x s') ->
  forall s s', forEachR body l s = Ok s' -> forall x, x ∈ l -> Q x s'.
Proof.
  intros Hnew Hkeep. induction l as [| y l IH]; intros s s' Hrun x Hx.
  - inversion Hx.
  - simpl in Hrun. destruct (body y s) as [s1 | e |] eqn:Hb; simpl in Hrun;
      try discriminate.
    apply elem_of_cons in Hx as [-> | Hx].
    + eapply (forEachR_inv (Q y)); [| | exact Hrun]; eauto.
    + eapply IH; eauto.
Qed.

Lemma forEach_inv {R A S} (I : S -> Prop) (body : A -> S -> M R S) (l : list A) :
  (forall x s h s', I s -> (body x s h).2 = Ok s' -> I s') ->
  forall s h s', I s -> (forEach body l s h).2 = Ok s' -> I s'.
Proof.
  intros Hbody. induction l as [| x l IH]; intros s h s' Hs; simpl.
  - intros [= <-]. exact Hs.
  - unfold bind. specialize (Hbody x s h).
    destruct (body x s h) as [n1 [s1 | e |]]; simpl in *; try discriminate.
    specialize (IH s1 (h ++ n1) s' (Hbody s1 Hs eq_refl)).
    destruct (forEach body l s1 (h ++ n1)) as [n2 r]. exact IH.
Qed.

End LoopInvariants.

Section Pass1.
Context (db : Database) (cd : Codec).

Lemma recorded_wrapAccount watchedAddresses nodePath node leafKey account :
  isWatchedAddress cd watchedAddresses leafKey = true ->
  recorded cd watchedAddresses (Bytes2Hex leafKey)
    (wrapAccount Leaf nodePath node leafKey account).
Proof. intros Hw. repeat split; simpl; eauto. Qed.

Lemma createdAndUpdatedState_body_accounts watchedAddresses p st st' :
  createdAndUpdatedState_body db cd watchedAddresses p st = Ok st' ->
  map_Forall (recorded cd watchedAddresses) st.1 ->
  map_Forall (recorded cd watchedAddresses) st'.1.
Proof.
  destruct st as [accounts paths]. unfold createdAndUpdatedState_body.
  intros Hrun Hinv. run_body; try exact Hinv.
  apply map_Forall_insert_2; [| exact Hinv].
  apply recorded_wrapAccount. assumption.
Qed.

Lemma createdAndUpdatedState_body_paths watchedAddresses p st st' :
  createdAndUpdatedState_body db cd watchedAddresses p st = Ok st' ->
  (forall k, st.2 !! k = Some true -> st'.2 !! k = Some true) /\
  (structuralNode p -> st'.2 !! Bytes2Hex (it_Path p) = Some true).
Proof.
  destruct st as [accounts paths].
  unfold createdAndUpdatedState_body, structuralNode, bytes_Equal.
  intros Hrun. unfold rbind in Hrun.
  repeat (case_match; simpl in *; simplify_eq);
    try case_bool_decide; simplify_eq;
    (split; [| try (intros [? ?]; congruence)]);
    try (intros k Hk; destruct (decide (Bytes2Hex (it_Path p) = k)) as [<- | Hne];
         [apply lookup_insert_eq | rewrite lookup_insert_ne by exact Hne; exact Hk]);
    try (intros _; apply lookup_insert_eq);
    auto.
Qed.

Lemma createdAndUpdatedState_accounts a b watchedAddresses accounts paths :
  createdAndUpdatedState db cd a b watchedAddresses = Ok (accounts, paths) ->
  map_Forall (recorded cd watchedAddresses) accounts.
Proof.
  unfold createdAndUpdatedState. cbv zeta.
  destruct (forEachR _ _ _) as [st | e |] eqn:Hloop; simpl; try discriminate.
  intros Hret. case_match; simplify_eq.
  apply (forEachR_inv (fun st => map_Forall (recorded cd watchedAddresses) st.1)
           _ _ (fun x s s' Hs Hb =>
                  createdAndUpdatedState_body_accounts _ x s s' Hb Hs)
           _ _ (map_Forall_empty _) Hloop).
Qed.

Lemma createdAndUpdatedState_paths a b watchedAddresses accounts paths :
  createdAndUpdatedState db cd a b watchedAddresses = Ok (accounts, paths) ->
  forall p, p ∈ positions (NewDifferenceIterator cd a b) -> structuralNode p ->
            paths !! Bytes2Hex (it_Path p) = Some true.
Proof.
  unfold createdAndUpdatedState. cbv zeta.
  destruct (forEachR _ _ _) as [st | e |] eqn:Hloop; simpl; try discriminate.
  intros Hret. case_match; simplify_eq. intros p Hp.
  apply (forEachR_each
           (fun p st => structuralNode p -> st.2 !! Bytes2Hex (it_Path p) = Some true)
           _ _
           (fun x s s' Hb => proj2 (createdAndUpdatedState_body_paths _ x s s' Hb))
           (fun x y s s' Hq Hb Hx =>
              proj1 (createdAndUpdatedState_body_paths _ y s s' Hb) _ (Hq Hx))
           _ _ Hloop p Hp).
Qed.

Lemma isWatchedAddress_elem watchedAddresses leafKey :
  watchedAddresses <> [] ->
  isWatchedAddress cd watchedAddresses leafKey = true ->
  exists addr, addr ∈ watchedAddresses /\ leafKey = Keccak256 cd addr.
Proof.
  intros Hne. unfold isWatchedAddress.
  destruct (decide _) as [Hlen | _].
  - destruct watchedAddresses; [contradiction | discriminate].
  - intros Hex. apply existsb_exists in Hex as (addr & Hin & Heq).
    exists addr. split; [apply list_elem_of_In; exact Hin |].
    unfold bytes_Equal in Heq. apply bool_decide_eq_true_1 in Heq. congruence.
Qed.

Lemma withIntermediateNodes_body_accounts output p st h st' :
  (createdAndUpdatedStateWithIntermediateNodes_body db cd output p st h).2 = Ok st' ->
  map_Forall (recorded cd []) st.1 -> map_Forall (recorded cd []) st'.1.
Proof.
  destruct st as [accounts paths].
  unfold createdAndUpdatedStateWithIntermediateNodes_body.
  intros Hrun Hinv. run_body; try exact Hinv.
  apply map_Forall_insert_2; [| exact Hinv].
  apply recorded_wrapAccount. reflexivity.
Qed.

Lemma withIntermediateNodes_accounts a b output h accounts paths :
  (createdAndUpdatedStateWithIntermediateNodes db cd a b output h).2
    = Ok (accounts, paths) ->
  map_Forall (recorded cd []) accounts.
Proof.
  unfold createdAndUpdatedStateWithIntermediateNodes. cbv zeta.
  intros Hrun. apply bind_lift_snd in Hrun as (st & Hloop & Herr).
  case_match; simplify_eq.
  apply (forEach_inv (fun st => map_Forall (recorded cd []) st.1)
           _ _ (fun x s h s' Hs Hb =>
                  withIntermediateNodes_body_accounts _ x s h s' Hb Hs)
           _ _ _ (map_Forall_empty _) Hloop).
Qed.

Lemma fromPass1_recorded diffAccountsAtB :
  fromPass1 db cd diffAccountsAtB ->
  exists watchedAddresses, map_Forall (recorded cd watchedAddresses) diffAccountsAtB.
Proof.
  intros [a b w paths H | a b output h paths H].
  - exists w. eapply createdAndUpdatedState_accounts, H.
  - exists []. eapply withIntermediateNodes_accounts, H.
Qed.

(** C10.  In Pass 1 with a list of watched addresses, the path of every node
    visited that is not a value node and does not have the all-zeros hash is
    inserted into [diffPathsAtB], also when the node is a leaf whose key
    fails the filter, so that it is not recorded in the accounts (all
    recorded accounts pass the filter); hence no [Removed] record of Pass 2
    carries the path of a node that changed at B. *)
Theorem C10_suppressed_leaves_keep_their_path
    (a b : NodeIterator) (watchedAddresses : list Address)
    (diffAccountsAtB : AccountMap) (diffPathsAtB : gmap string bool) :
  createdAndUpdatedState db cd a b watchedAddresses
    = Ok (diffAccountsAtB, diffPathsAtB) ->
  (forall p, p ∈ positions (NewDifferenceIterator cd a b) ->
             it_Leaf p = false -> nullHashBytes <> it_Hash p ->
             diffPathsAtB !! Bytes2Hex (it_Path p) = Some true) /\
  (forall k w, diffAccountsAtB !! k = Some w ->
               isWatchedAddress cd watchedAddresses (aw_LeafKey w) = true) /\
  (forall output h r,
      r ∈ (deletedOrUpdatedState db cd a b diffPathsAtB output h).1 ->
      NodeType_ r = Removed /\
      diffPathsAtB !! Bytes2Hex (Path r) = None /\
      forall p, p ∈ positions (NewDifferenceIterator cd a b) ->
                it_Leaf p = false -> nullHashBytes <> it_Hash p ->
                Path r <> it_Path p).
Proof.
  intros Hrun.
  assert (forall p, p ∈ positions (NewDifferenceIterator cd a b) ->
                    it_Leaf p = false -> nullHashBytes <> it_Hash p ->
                    diffPathsAtB !! Bytes2Hex (it_Path p) = Some true) as Hpaths.
  { intros p Hp Hl Hh.
    apply (createdAndUpdatedState_paths _ _ _ _ _ Hrun p Hp). split; assumption. }
  split; [exact Hpaths |]. split.
  - intros k w Hk.
    apply (createdAndUpdatedState_accounts _ _ _ _ _ Hrun k w Hk).
  - intros output h r Hr.
    destruct (deletedOrUpdatedState_trace db cd a b diffPathsAtB output h)
      as (visited & rest & _ & Hrec & _).
    rewrite Hrec in Hr. apply list_elem_of_fmap in Hr as (q & -> & Hq).
    apply list_elem_of_filter in Hq as [[_ Hnone] _]. simpl.
    split; [reflexivity |]. split; [exact Hnone |].
    intros p Hp Hl Hh Heq. rewrite Heq, (Hpaths p Hp Hl Hh) in Hnone. discriminate.
Qed.

End Pass1.

(** * Watched addresses *)

Section Watched.
Context (db : Database) (cd : Codec).
Context (rangeAccounts : AccountMap -> list (string * accountWrapper)).
Context (Hrange : rangeOrder rangeAccounts).
Context (watchedAddresses : list Address) (Hwatched : watchedAddresses <> []).

Lemma recorded_watchedOnly k w storageNodes :
  recorded cd watchedAddresses k w ->
  watchedOnly cd watchedAddresses
    {| NodeType_ := aw_NodeType w; Path := aw_Path w; NodeValue := aw_NodeValue w;
       LeafKey := aw_LeafKey w; StorageNodes := storageNodes |}.
Proof.
  intros (_ & Hty & _ & Hw). unfold watchedOnly. simpl. rewrite Hty.
  repeat split; try discriminate.
  intros _. apply isWatchedAddress_elem; assumption.
Qed.

Lemma zero_watchedOnly storageNodes :
  watchedOnly cd watchedAddresses
    {| NodeType_ := aw_NodeType zeroAccountWrapper;
       Path := aw_Path zeroAccountWrapper;
       NodeValue := aw_NodeValue zeroAccountWrapper;
       LeafKey := aw_LeafKey zeroAccountWrapper; StorageNodes := storageNodes |}.
Proof. unfold watchedOnly. simpl. repeat split; discriminate. Qed.

Lemma deletedOrUpdatedState_watchedOnly a b diffPathsAtB output :
  records (watchedOnly cd watchedAddresses) (fun _ => True)
    (deletedOrUpdatedState db cd a b diffPathsAtB output).
Proof.
  intros h. split; [| trivial].
  destruct (deletedOrUpdatedState_trace db cd a b diffPathsAtB output h)
    as (visited & rest & _ & -> & _).
  apply List.Forall_map, Forall_forall. intros p _.
  unfold watchedOnly. simpl. repeat split; discriminate.
Qed.

Lemma buildAccountUpdates_watchedOnly creations deletions updatedKeys ws isn output :
  map_Forall (recorded cd watchedAddresses) creations ->
  records (watchedOnly cd watchedAddresses)
    (fun maps => map_Forall (recorded cd watchedAddresses) maps.1)
    (buildAccountUpdates db cd creations deletions updatedKeys ws isn output).
Proof.
  intros Hinv. unfold buildAccountUpdates.
  apply (records_forEach _
           (fun maps : AccountMap * AccountMap =>
              map_Forall (recorded cd watchedAddresses) maps.1));
    [| exact Hinv].
  intros key [c d] _ Hc. unfold buildAccountUpdates_body. simpl in Hc.
  apply records_bind with (Φ := fun _ => True); [apply records_lift; trivial |].
  intros storageDiffs _.
  apply records_bind with (Φ := fun _ => True).
  - apply records_emit; [| trivial]. unfold mapIndex.
    destruct (c !! key) as [w |] eqn:Hk; simpl.
    + eapply recorded_watchedOnly, Hc, Hk.
    + apply zero_watchedOnly.
  - intros _ _. apply records_ret. simpl. apply map_Forall_delete, Hc.
Qed.

Lemma buildAccountCreations_watchedOnly accounts ws isn output :
  map_Forall (recorded cd watchedAddresses) accounts ->
  records (watchedOnly cd watchedAddresses) (fun _ => True)
    (buildAccountCreations db cd rangeAccounts accounts ws isn output).
Proof.
  intros Hinv. unfold buildAccountCreations.
  apply (records_forEach _ (fun _ => True)); [| trivial].
  intros [k w] codes Hin _. unfold buildAccountCreations_body. simpl.
  assert (accounts !! k = Some w) as Hk.
  { apply elem_of_map_to_list. rewrite <- (Hrange accounts). exact Hin. }
  apply records_bind with (Φ := fun _ => True); [apply records_lift; trivial |].
  intros account _.
  apply records_bind with (Φ := fun _ => True); [apply records_lift; trivial |].
  intros r _.
  apply records_bind with (Φ := fun _ => True); [| intros; apply records_ret; trivial].
  apply records_emit; [| trivial].
  eapply recorded_watchedOnly, Hinv, Hk.
Qed.

Lemma reconcile_watchedOnly diffAccountsAtB diffAccountsAtA params output :
  map_Forall (recorded cd watchedAddresses) diffAccountsAtB ->
  records (watchedOnly cd watchedAddresses) (fun _ => True)
    (reconcile db cd rangeAccounts diffAccountsAtB diffAccountsAtA params output).
Proof.
  intros Hinv. unfold reconcile.
  eapply records_bind.
  - apply records_wrapM. apply buildAccountUpdates_watchedOnly, Hinv.
  - intros maps Hmaps. apply records_wrapM.
    apply buildAccountCreations_watchedOnly, Hmaps.
Qed.

Lemma withoutIntermediateStateNodes_watchedOnly args params output :
  WatchedAddresses params = watchedAddresses ->
  records (watchedOnly cd watchedAddresses) (fun _ => True)
    (buildStateDiffWithoutIntermediateStateNodes db cd rangeAccounts args params output).
Proof.
  intros Hp. unfold buildStateDiffWithoutIntermediateStateNodes.
  apply records_bind with (Φ := fun _ => True); [apply records_lift; trivial |].
  intros [oldTrie newTrie] _.
  apply records_bind
    with (Φ := fun st : AccountMap * gmap string bool =>
                 map_Forall (recorded cd watchedAddresses) st.1).
  - apply records_lift. intros [accounts paths] Hrun. simpl.
    destruct (createdAndUpdatedState _ _ _ _ _) as [st | e |] eqn:Hc;
      simpl in Hrun; try discriminate.
    injection Hrun as ->. rewrite Hp in Hc.
    eapply createdAndUpdatedState_accounts, Hc.
  - intros [accounts paths] Hinv. simpl in Hinv.
    apply records_bind with (Φ := fun _ => True).
    + apply records_wrapM, deletedOrUpdatedState_watchedOnly.
    + intros diffAccountsAtA _. apply reconcile_watchedOnly, Hinv.
Qed.

End Watched.

Section WatchedAddresses.
Context (db : Database) (cd : Codec).
Context (rangeAccounts : AccountMap -> list (string * accountWrapper)).

(** C2.  When [WriteStateDiffObject] is called with a set of watched
    addresses that is not empty, the code path without intermediate nodes is
    taken, whatever [IntermediateStateNodes] says; no record of type
    Extension or Branch is handed to the callback, and every record of type
    Leaf has a leaf key that is [Keccak256(addr)] for a watched address. *)
Theorem C2_watched_addresses_only
    (Hrange : rangeOrder rangeAccounts)
    (args : StateRoots) (params : Params) (output : Sink StateNode)
    (h : list StateNode) :
  WatchedAddresses params <> [] ->
  WriteStateDiffObject db cd rangeAccounts args params output
    = buildStateDiffWithoutIntermediateStateNodes db cd rangeAccounts args params output /\
  forall r,
    r ∈ (WriteStateDiffObject db cd rangeAccounts args params output h).1 ->
    NodeType_ r <> Extension /\ NodeType_ r <> Branch /\
    (NodeType_ r = Leaf ->
     exists addr, addr ∈ WatchedAddresses params /\ LeafKey r = Keccak256 cd addr).
Proof.
  intros Hne.
  assert (WriteStateDiffObject db cd rangeAccounts args params output
          = buildStateDiffWithoutIntermediateStateNodes db cd rangeAccounts
              args params output) as ->.
  { unfold WriteStateDiffObject.
    rewrite (bool_decide_eq_true_2 (0 < length (WatchedAddresses params))).
    - rewrite orb_true_r. reflexivity.
    - destruct (WatchedAddresses params); [contradiction | simpl; lia]. }
  split; [reflexivity |]. intros r Hr.
  destruct (withoutIntermediateStateNodes_watchedOnly db cd rangeAccounts Hrange
              (WatchedAddresses params) Hne args params output eq_refl h)
    as [Hall _].
  rewrite Forall_forall in Hall. apply (Hall r Hr).
Qed.

End WatchedAddresses.

(** * Pass 3 of the state diff *)

Section Keys.

Lemma sortKeys_elem (m : AccountMap) (k : string) :
  k ∈ sortKeys m <-> is_Some (m !! k).
Proof.
  unfold sortKeys. rewrite merge_sort_Permutation, list_elem_of_fmap. split.
  - intros ([k' w] & -> & Hin). apply elem_of_map_to_list in Hin. eauto.
  - intros [w Hw]. exists (k, w). split; [reflexivity |].
    apply elem_of_map_to_list, Hw.
Qed.

Lemma sortKeys_NoDup (m : AccountMap) : NoDup (sortKeys m).
Proof.
  unfold sortKeys. rewrite merge_sort_Permutation. apply NoDup_fst_map_to_list.
Qed.



Lemma findIntersection_elem a b k :
  k ∈ findIntersection a b <-> k ∈ a /\ k ∈ b.
Proof. unfold findIntersection. rewrite list_elem_of_filter. tauto. Qed.

Lemma updatedKeys_NoDup (B A : AccountMap) :
  NoDup (findIntersection (sortKeys B) (sortKeys A)).
Proof. apply NoDup_filter, sortKeys_NoDup. Qed.


Lemma updatedKeys_elem (B A : AccountMap) k :
  k ∈ findIntersection (sortKeys B) (sortKeys A) ->
  is_Some (B !! k) /\ is_Some (A !! k).
Proof.
  rewrite findIntersection_elem, !sortKeys_elem. tauto.
Qed.

Lemma foldl_deleteKey_absent (keys : list string) (key : string)
    (s : AccountMap * AccountMap) :
  s.1 !! key = None -> s.2 !! key = None ->
  (foldl (fun s x => deleteKey x s) s keys).1 !! key = None /\
  (foldl (fun s x => deleteKey x s) s keys).2 !! key = None.
Proof.
  revert s. induction keys as [| k' keys IH]; intros s H1 H2; simpl; [auto |].
  apply IH; unfold deleteKey; simpl.
  - destruct (decide (k' = key)) as [-> | Hne];
      [apply lookup_delete_eq | rewrite lookup_delete_ne by exact Hne; exact H1].
  - destruct (decide (k' = key)) as [-> | Hne];
      [apply lookup_delete_eq | rewrite lookup_delete_ne by exact Hne; exact H2].
Qed.

Lemma foldl_deleteKey (keys : list string) (maps : AccountMap * AccountMap) :
  let after := foldl (fun s x => deleteKey x s) maps keys in
  (forall k, k ∈ keys -> after.1 !! k = None /\ after.2 !! k = None) /\
  (forall k w, after.1 !! k = Some w -> maps.1 !! k = Some w).
Proof.
  revert maps. induction keys as [| key keys IH]; intros maps; simpl.
  - split; [intros k Hk; inversion Hk | auto].
  - destruct (IH (deleteKey key maps)) as [Hgone Hsub]. split.
    + intros k Hk. apply elem_of_cons in Hk as [-> | Hk]; [| apply Hgone, Hk].
      apply foldl_deleteKey_absent; unfold deleteKey; simpl; apply lookup_delete_eq.
    + intros k w Hk. apply Hsub in Hk. unfold deleteKey in Hk. simpl in Hk.
      apply lookup_delete_Some in Hk as [_ Hk]. exact Hk.
Qed.

End Keys.

Section Pass3.
Context (db : Database) (cd : Codec).
Context (rangeAccounts : AccountMap -> list (string * accountWrapper)).

Lemma buildAccountCreations_body_step ws isn output :
  step (fun entry (_ : list CodeAndCodeHash) => [createdLeaf db cd ws isn entry.2])
       (fun entry codes => codes ++ createdCode db cd entry.2)
       (buildAccountCreations_body db cd ws isn output).
Proof.
  intros [k w] codes h.
  unfold buildAccountCreations_body, creationStorageAndCode, createdLeaf, createdCode.
  simpl. run_body;
    (split;
     [first [left; reflexivity | right; split; [reflexivity | discriminate]]
     | intros; simplify_eq; rewrite ?app_nil_r; reflexivity]).
Qed.

Lemma foldl_createdCode (l : list (string * accountWrapper)) codes :
  foldl (fun s x => s ++ createdCode db cd x.2) codes l
  = codes ++ flat_map (fun entry => createdCode db cd entry.2) l.
Proof.
  revert codes. induction l as [| x l IH]; intros codes; simpl.
  - symmetry. apply app_nil_r.
  - rewrite IH, app_assoc. reflexivity.
Qed.

Lemma buildAccountCreations_trace accounts ws isn output h :
  exists visited rest,
    rangeAccounts accounts = visited ++ rest /\
    (buildAccountCreations db cd rangeAccounts accounts ws isn output h).1
    = map (fun entry => createdLeaf db cd ws isn entry.2) visited /\
    forall codes,
      (buildAccountCreations db cd rangeAccounts accounts ws isn output h).2 = Ok codes ->
      rest = [] /\
      codes = flat_map (fun entry => createdCode db cd entry.2) visited.
Proof.
  unfold buildAccountCreations.
  destruct (forEach_emitted _ _ _ (buildAccountCreations_body_step ws isn output)
              (rangeAccounts accounts) [] h)
    as (visited & rest & Hl & Hrec & Hok).
  exists visited, rest. split; [exact Hl |]. split.
  - rewrite Hrec, emitted_flat_map. clear. induction visited; simpl; congruence.
  - intros codes Hc. destruct (Hok codes Hc) as [-> ->].
    split; [reflexivity |]. rewrite Hl, app_nil_r. apply foldl_createdCode.
Qed.


Lemma buildAccountUpdates_body_step ws isn output :
  step (fun key maps => [updatedLeaf db cd ws isn key maps]) deleteKey
       (buildAccountUpdates_body db cd ws isn output).
Proof.
  intros key [c d] h. unfold buildAccountUpdates_body, updatedLeaf, deleteKey.
  simpl. unfold bind, lift, emit, ret. simpl.
  destruct (updateStorageDiffs db cd key (mapIndex c key) (mapIndex d key) ws isn)
    as [storageDiffs | e |]; simpl;
    try (split; [right; split; [reflexivity | discriminate] | discriminate]).
  match goal with |- context [output ?a ?b] => destruct (output a b) end; simpl;
    (split; [left; reflexivity | intros s' Hs; simplify_eq; reflexivity]).
Qed.

Lemma buildAccountUpdates_trace creations deletions updatedKeys ws isn output h :
  exists visited rest,
    updatedKeys = visited ++ rest /\
    (buildAccountUpdates db cd creations deletions updatedKeys ws isn output h).1
    = emitted (fun key maps => [updatedLeaf db cd ws isn key maps]) deleteKey
        visited (creations, deletions) /\
    forall maps,
      (buildAccountUpdates db cd creations deletions updatedKeys ws isn output h).2
        = Ok maps ->
      rest = [] /\
      maps = foldl (fun s x => deleteKey x s) (creations, deletions) updatedKeys.
Proof.
  unfold buildAccountUpdates.
  apply (forEach_emitted _ _ _ (buildAccountUpdates_body_step ws isn output)).
Qed.

Lemma emitted_updates_keys ws isn watchedAddresses keys (maps : AccountMap * AccountMap) :
  NoDup keys -> (forall k, k ∈ keys -> is_Some (maps.1 !! k)) ->
  map_Forall (recorded cd watchedAddresses) maps.1 ->
  map leafKeyHex
    (emitted (fun key maps => [updatedLeaf db cd ws isn key maps]) deleteKey keys maps)
  = keys.
Proof.
  revert maps. induction keys as [| key keys IH]; intros maps Hnd Hdom Hinv;
    simpl; [reflexivity |].
  apply NoDup_cons in Hnd as [Hnin Hnd]. f_equal.
  - destruct (Hdom key) as [w Hw]; [left |].
    unfold leafKeyHex, updatedLeaf, mapIndex. simpl. rewrite Hw. simpl.
    destruct (Hinv key w Hw) as [-> _]. reflexivity.
  - apply IH; [exact Hnd | |].
    + intros k Hk. unfold deleteKey. simpl. rewrite lookup_delete_ne.
      * apply Hdom. right. exact Hk.
      * intros ->. contradiction.
    + unfold deleteKey. simpl. apply map_Forall_delete, Hinv.
Qed.

(** The leaf keys of the records of [buildAccountUpdates], in hexadecimal,
    are the keys it was given, up to the one at which it failed. *)
Lemma buildAccountUpdates_keys B A ws isn output h :
  fromPass1 db cd B ->
  exists visited rest,
    findIntersection (sortKeys B) (sortKeys A) = visited ++ rest /\
    map leafKeyHex
      (buildAccountUpdates db cd B A (findIntersection (sortKeys B) (sortKeys A))
         ws isn output h).1 = visited /\
    forall maps,
      (buildAccountUpdates db cd B A (findIntersection (sortKeys B) (sortKeys A))
         ws isn output h).2 = Ok maps ->
      rest = [] /\
      maps = foldl (fun s x => deleteKey x s) (B, A)
               (findIntersection (sortKeys B) (sortKeys A)).
Proof.
  intros Hfrom. apply fromPass1_recorded in Hfrom as [watched Hinv].
  destruct (buildAccountUpdates_trace B A (findIntersection (sortKeys B) (sortKeys A))
              ws isn output h) as (visited & rest & Hl & Hrec & Hok).
  exists visited, rest. split; [exact Hl |]. split; [| exact Hok].
  rewrite Hrec. apply emitted_updates_keys with (watchedAddresses := watched).
  - pose proof (updatedKeys_NoDup B A) as Hnd. rewrite Hl in Hnd.
    apply NoDup_app in Hnd as [Hnd _]. exact Hnd.
  - intros k Hk. simpl. apply (updatedKeys_elem B A k). rewrite Hl.
    apply elem_of_app. left. exact Hk.
  - exact Hinv.
Qed.

End Pass3.

Section Reconciliation.
Context (db : Database) (cd : Codec).
Context (rangeAccounts : AccountMap -> list (string * accountWrapper)).
Context (Hrange : rangeOrder rangeAccounts).

(** An entry that the [range] of [buildAccountCreations] visits after the
    updates is an entry of the map, stored under the hexadecimal form of its
    leaf key. *)
Lemma remaining_entry B A keys k w :
  fromPass1 db cd B ->
  (k, w) ∈ rangeAccounts (foldl (fun s x => deleteKey x s) (B, A) keys).1 ->
  (foldl (fun s x => deleteKey x s) (B, A) keys).1 !! k = Some w /\
  k = Bytes2Hex (aw_LeafKey w).
Proof.
  intros Hfrom Hin. apply fromPass1_recorded in Hfrom as [watched Hinv].
  rewrite (Hrange _) in Hin. apply elem_of_map_to_list in Hin.
  split; [exact Hin |].
  apply (proj2 (foldl_deleteKey keys (B, A))) in Hin. simpl in Hin.
  apply (Hinv k w Hin).
Qed.

Lemma created_keys B A keys ws isn (visited : list (string * accountWrapper)) :
  fromPass1 db cd B ->
  (forall entry, entry ∈ visited ->
     entry ∈ rangeAccounts (foldl (fun s x => deleteKey x s) (B, A) keys).1) ->
  map leafKeyHex (map (fun entry => createdLeaf db cd ws isn entry.2) visited)
  = visited.*1.
Proof.
  intros Hfrom. induction visited as [| [k w] visited IH]; intros Hsub;
    simpl; [reflexivity |].
  f_equal.
  - destruct (remaining_entry B A keys k w Hfrom) as [_ ->]; [apply Hsub; left |].
    reflexivity.
  - apply IH. intros entry He. apply Hsub. right. exact He.
Qed.


(** C9.  [buildAccountUpdates] deletes every updated key from both account
    maps before [buildAccountCreations] ranges over what remains of the map
    of B; so no leaf key is written both as an updated and as a created
    leaf. *)
Theorem C9_updated_and_created_keys_disjoint
    (B A : AccountMap) (ws : list Hash) (isn : bool)
    (output : Sink StateNode) (h : list StateNode)
    (maps : AccountMap * AccountMap) :
  fromPass1 db cd B ->
  let updatedKeys := findIntersection (sortKeys B) (sortKeys A) in
  (buildAccountUpdates db cd B A updatedKeys ws isn output h).2 = Ok maps ->
  (forall k, k ∈ updatedKeys -> maps.1 !! k = None /\ maps.2 !! k = None) /\
  forall h' u c,
    u ∈ (buildAccountUpdates db cd B A updatedKeys ws isn output h).1 ->
    c ∈ (buildAccountCreations db cd rangeAccounts maps.1 ws isn output h').1 ->
    LeafKey u <> LeafKey c.
Proof.
  intros Hfrom updatedKeys Hmaps.
  destruct (buildAccountUpdates_keys db cd B A ws isn output h Hfrom)
    as (visited & rest & Hl & Hkeys & Hok).
  fold updatedKeys in Hl, Hkeys, Hok.
  destruct (Hok maps Hmaps) as [-> ->]. rewrite app_nil_r in Hl. subst visited.
  pose proof (proj1 (foldl_deleteKey updatedKeys (B, A))) as Hgone.
  split; [exact Hgone |].
  intros h' u c Hu Hc Heq.
  assert (leafKeyHex u ∈ updatedKeys) as Hku.
  { rewrite <- Hkeys. apply list_elem_of_fmap. exists u. auto. }
  destruct (buildAccountCreations_trace db cd rangeAccounts
              (foldl (fun s x => deleteKey x s) (B, A) updatedKeys).1
              ws isn output h') as (vis & rst & Hr & Hrec & _).
  rewrite Hrec in Hc. apply list_elem_of_fmap in Hc as ([k w] & -> & Hin).
  destruct (remaining_entry B A updatedKeys k w Hfrom) as [Hlook Hk].
  { rewrite Hr. apply elem_of_app. left. exact Hin. }
  unfold leafKeyHex in Hku. rewrite Heq in Hku. simpl in Hku. rewrite <- Hk in Hku.
  destruct (Hgone k Hku) as [Hnone _]. rewrite Hnone in Hlook. discriminate.
Qed.

End Reconciliation.

(** * Runs on the test store *)

Lemma test_fromPass1 old new :
  (exists st, createdAndUpdatedState TestStore.testDb TestStore.testCodec
                (TestStore.iterOf old) (TestStore.iterOf new) [] = Ok st) ->
  fromPass1 TestStore.testDb TestStore.testCodec (TestStore.pass1Accounts old new).
Proof.
  intros [[accounts paths] Hst].
  apply (fromCreatedAndUpdatedState _ _ _ (TestStore.iterOf old)
           (TestStore.iterOf new) [] paths).
  unfold TestStore.pass1Accounts. rewrite Hst. reflexivity.
Qed.





Lemma C2_witness :
  let params := TestStore.watching [TestStore.addr2] in
  let args := TestStore.roots TestStore.emptyRoot (TestStore.hashOf x02) in
  rangeOrder TestStore.rangeAscending /\
  WatchedAddresses params <> [] /\
  map leafKeyHex
    (WriteStateDiffObject TestStore.testDb TestStore.testCodec
       TestStore.rangeAscending args params stateNodeAppender []).1
  = [ "2000000000000000000000000000000000000000000000000000000000000000" ] /\
  forall r,
    r ∈ (WriteStateDiffObject TestStore.testDb TestStore.testCodec
           TestStore.rangeAscending args params stateNodeAppender []).1 ->
    NodeType_ r <> Extension /\ NodeType_ r <> Branch /\
    (NodeType_ r = Leaf ->
     exists addr, addr ∈ WatchedAddresses params /\
                  LeafKey r = Keccak256 TestStore.testCodec addr).
Proof.
  intros params args. split; [exact rangeAscending_order |].
  split; [discriminate |]. split; [vm_compute; reflexivity |].
  refine (proj2 (C2_watched_addresses_only TestStore.testDb TestStore.testCodec
                   TestStore.rangeAscending rangeAscending_order
                   args params stateNodeAppender [] _)).
  discriminate.
Defined.

Lemma C9_witness :
  let B := TestStore.pass1Accounts (TestStore.hashOf x01) (TestStore.hashOf x02) in
  let A := TestStore.pass2Accounts (TestStore.hashOf x01) (TestStore.hashOf x02) in
  let updatedKeys := findIntersection (sortKeys B) (sortKeys A) in
  rangeOrder TestStore.rangeAscending /\
  fromPass1 TestStore.testDb TestStore.testCodec B /\
  updatedKeys = [ "1000000000000000000000000000000000000000000000000000000000000000" ] /\
  exists maps,
    (buildAccountUpdates TestStore.testDb TestStore.testCodec B A updatedKeys
       [] false stateNodeAppender []).2 = Ok maps /\
    (forall k, k ∈ updatedKeys -> maps.1 !! k = None /\ maps.2 !! k = None) /\
    forall h' u c,
      u ∈ (buildAccountUpdates TestStore.testDb TestStore.testCodec B A updatedKeys
             [] false stateNodeAppender []).1 ->
      c ∈ (buildAccountCreations TestStore.testDb TestStore.testCodec
             TestStore.rangeAscending maps.1 [] false stateNodeAppender h').1 ->
      LeafKey u <> LeafKey c.
Proof.
  intros B A updatedKeys.
  assert (fromPass1 TestStore.testDb TestStore.testCodec B) as Hfrom.
  { apply test_fromPass1. vm_compute. eexists. reflexivity. }
  assert (exists maps,
             (buildAccountUpdates TestStore.testDb TestStore.testCodec B A updatedKeys
                [] false stateNodeAppender []).2 = Ok maps) as [maps Hmaps].
  { vm_compute. eexists. reflexivity. }
  split; [exact rangeAscending_order |]. split; [exact Hfrom |].
  split; [vm_compute; reflexivity |].
  exists maps. split; [exact Hmaps |].
  exact (C9_updated_and_created_keys_disjoint TestStore.testDb TestStore.testCodec
           TestStore.rangeAscending rangeAscending_order
           B A [] false stateNodeAppender [] maps Hfrom Hmaps).
Defined.

Lemma C10_witness :
  let a := TestStore.iterOf TestStore.emptyRoot in
  let b := TestStore.iterOf (TestStore.hashOf x02) in
  exists diffAccountsAtB diffPathsAtB,
    createdAndUpdatedState TestStore.testDb TestStore.testCodec a b [TestStore.addr2]
      = Ok (diffAccountsAtB, diffPathsAtB) /\
    diffAccountsAtB !! Bytes2Hex TestStore.key1 = None /\
    (forall p, p ∈ positions (NewDifferenceIterator TestStore.testCodec a b) ->
               it_Leaf p = false -> nullHashBytes <> it_Hash p ->
               diffPathsAtB !! Bytes2Hex (it_Path p) = Some true) /\
    (forall k w, diffAccountsAtB !! k = Some w ->
                 isWatchedAddress TestStore.testCodec [TestStore.addr2]
                   (aw_LeafKey w) = true) /\
    (forall output h r,
        r ∈ (deletedOrUpdatedState TestStore.testDb TestStore.testCodec a b
               diffPathsAtB output h).1 ->
        NodeType_ r = Removed /\
        diffPathsAtB !! Bytes2Hex (Path r) = None /\
        forall p, p ∈ positions (NewDifferenceIterator TestStore.testCodec a b) ->
                  it_Leaf p = false -> nullHashBytes <> it_Hash p ->
                  Path r <> it_Path p).
Proof.
  intros a b.
  destruct (createdAndUpdatedState TestStore.testDb TestStore.testCodec a b
              [TestStore.addr2]) as [[accounts paths] | e |] eqn:Hrun;
    [| vm_compute in Hrun; discriminate Hrun ..].
  exists accounts, paths. split; [reflexivity |]. split.
  - vm_compute in Hrun. injection Hrun as <- _. vm_compute. reflexivity.
  - exact (C10_suppressed_leaves_keep_their_path TestStore.testDb TestStore.testCodec
             a b [TestStore.addr2] accounts paths Hrun).
Defined.

(** * Scenarios

    The builder on the test store, in the manner of the concrete scenarios
    that accompany the design: what is written, by type, path and leaf key. *)

(** One account is created: one leaf, no storage nodes, no code. *)
Example single_account_creation :
  summary (WriteStateDiffObject TestStore.testDb TestStore.testCodec
             TestStore.rangeAscending
             (TestStore.roots TestStore.emptyRoot (TestStore.hashOf x01))
             TestStore.params0 stateNodeAppender [])
  = ([ (Leaf, "",
        "1000000000000000000000000000000000000000000000000000000000000000", 0) ],
     Ok []).
Proof. vm_compute. reflexivity. Qed.

(** The balance of the first account changes and a second account appears:
    the updated leaf comes first, then the created one. *)
Example update_then_creation :
  summary (WriteStateDiffObject TestStore.testDb TestStore.testCodec
             TestStore.rangeAscending
             (TestStore.roots (TestStore.hashOf x01) (TestStore.hashOf x02))
             TestStore.params0 stateNodeAppender [])
  = ([ (Leaf, "01",
        "1000000000000000000000000000000000000000000000000000000000000000", 0);
       (Leaf, "02",
        "2000000000000000000000000000000000000000000000000000000000000000", 0) ],
     Ok []).
Proof. vm_compute. reflexivity. Qed.

(** The second account is deleted and the first moves to the root: the two
    paths below the branch are removed, and the first account is updated. *)
Example account_deletion :
  summary (WriteStateDiffObject TestStore.testDb TestStore.testCodec
             TestStore.rangeAscending
             (TestStore.roots (TestStore.hashOf x02) (TestStore.hashOf x01))
             TestStore.params0 stateNodeAppender [])
  = ([ (Removed, "01", "", 0); (Removed, "02", "", 0);
       (Leaf, "",
        "1000000000000000000000000000000000000000000000000000000000000000", 0) ],
     Ok []).
Proof. vm_compute. reflexivity. Qed.

(** A contract with one storage slot is created: one leaf with one storage
    node, and its code. *)
Example contract_creation :
  summary (WriteStateDiffObject TestStore.testDb TestStore.testCodec
             TestStore.rangeAscending
             (TestStore.roots TestStore.emptyRoot (TestStore.hashOf x06))
             TestStore.params0 stateNodeAppender [])
  = ([ (Leaf, "",
        "2000000000000000000000000000000000000000000000000000000000000000", 1) ],
     Ok [ {| cc_Hash := TestStore.codeHash1; cc_Code := TestStore.code1 |} ]).
Proof. vm_compute. reflexivity. Qed.

(** With intermediate nodes and no watched address the branch is written;
    with a watched address it is not. *)
Example intermediate_nodes_and_watch_list :
  map NodeType_
    (WriteStateDiffObject TestStore.testDb TestStore.testCodec
       TestStore.rangeAscending
       (TestStore.roots TestStore.emptyRoot (TestStore.hashOf x02))
       (TestStore.watching []) stateNodeAppender []).1
  = [Branch; Leaf; Leaf] /\
  map NodeType_
    (WriteStateDiffObject TestStore.testDb TestStore.testCodec
       TestStore.rangeAscending
       (TestStore.roots TestStore.emptyRoot (TestStore.hashOf x02))
       (TestStore.watching [TestStore.addr1]) stateNodeAppender []).1
  = [Leaf].
Proof. split; vm_compute; reflexivity. Qed.

(** * Storage tries *)

Section StorageWalks.
Context (db : Database) (cd : Codec).

Lemma forEach_each {R A S} (Q : A -> S -> Prop) (body : A -> S -> M R S) (l : list A) :
  (forall x s h s', (body x s h).2 = Ok s' -> Q x s') ->
  (forall x y s h s', Q x s -> (body y s h).2 = Ok s' -> Q x s') ->
  forall s h s', (forEach body l s h).2 = Ok s' -> forall x, x ∈ l -> Q x s'.
Proof.
  intros Hnew Hkeep. induction l as [| y l IH]; intros s h s' Hrun x Hx.
  - inversion Hx.
  - simpl in Hrun. unfold bind in Hrun.
    destruct (body y s h) as [n1 [s1 | e |]] eqn:Hb; simpl in Hrun; try discriminate.
    destruct (forEach body l s1 (h ++ n1)) as [n2 r] eqn:Hl. simpl in Hrun. subst r.
    assert ((forEach body l s1 (h ++ n1)).2 = Ok s') as Hl2 by (rewrite Hl; reflexivity).
    apply elem_of_cons in Hx as [-> | Hx].
    + apply (forEach_inv (Q y) body l (fun x0 s0 h0 s0' Hq Hb0 => Hkeep y x0 s0 h0 s0' Hq Hb0)
               s1 (h ++ n1) s'); [| exact Hl2].
      apply (Hnew y s h). rewrite Hb. reflexivity.
    + eapply IH; eauto.
Qed.

Lemma buildStorageNodesFromTrie_body_records ws isn output p s h :
  (buildStorageNodesFromTrie_body db cd ws isn output p s h).1
  = if decide (storageWritten db cd ws isn p) then [storageNodeAt db cd p] else [].
Proof.
  unfold buildStorageNodesFromTrie_body, bytes_Equal.
  destruct (decide _) as [[[Hl Hh] Hrule] | Hn].
  - rewrite Hl. rewrite bool_decide_eq_false_2 by exact Hh.
    unfold storageNodeAt, nodeValueAt.
    unfold storageRemovalRule, nodeTypeAt, leafKeyAt in *.
    unfold bind, lift, emit, ret, unexpectedNodeType.
    repeat (case_match; simpl in *; simplify_eq); reflexivity.
  - destruct (it_Leaf p) eqn:Hl; [reflexivity |].
    case_bool_decide as Hh; [reflexivity |].
    assert (storageRemovalRule db cd ws isn p = false) as Hrule.
    { apply not_true_is_false. intros Ht. apply Hn. repeat split; auto. }
    unfold storageRemovalRule, nodeTypeAt, leafKeyAt in Hrule.
    unfold bind, lift, emit, ret, unexpectedNodeType.
    repeat (case_match; simpl in *; simplify_eq); reflexivity.
Qed.

Lemma createdAndUpdatedStorage_body_records ws isn output p s h :
  (createdAndUpdatedStorage_body db cd ws isn output p s h).1
  = if decide (storageWritten db cd ws isn p) then [storageNodeAt db cd p] else [].
Proof.
  unfold createdAndUpdatedStorage_body, bytes_Equal.
  destruct (decide _) as [[[Hl Hh] Hrule] | Hn].
  - rewrite Hl. rewrite bool_decide_eq_false_2 by exact Hh.
    unfold storageNodeAt, nodeValueAt.
    unfold storageRemovalRule, nodeTypeAt, leafKeyAt in *.
    unfold bind, lift, emit, ret, unexpectedNodeType.
    repeat (case_match; simpl in *; simplify_eq); reflexivity.
  - destruct (it_Leaf p) eqn:Hl; [reflexivity |].
    case_bool_decide as Hh; [reflexivity |].
    assert (storageRemovalRule db cd ws isn p = false) as Hrule.
    { apply not_true_is_false. intros Ht. apply Hn. repeat split; auto. }
    unfold storageRemovalRule, nodeTypeAt, leafKeyAt in Hrule.
    unfold bind, lift, emit, ret, unexpectedNodeType.
    repeat (case_match; simpl in *; simplify_eq); reflexivity.
Qed.

End StorageWalks.

Section WatchFilters.
Context (cd : Codec).

Lemma isWatchedStorageKey_spec (watchedKeys : list Hash) (storageLeafKey : bytes) :
  isWatchedStorageKey watchedKeys storageLeafKey = true <->
  watchedKeys = [] \/ storageLeafKey ∈ watchedKeys.
Proof.
  unfold isWatchedStorageKey. destruct (decide _) as [Hlen | Hlen].
  - split; [| reflexivity]. intros _. left.
    destruct watchedKeys; [reflexivity | discriminate].
  - rewrite existsb_exists. split.
    + intros (k & Hin & Heq). right. unfold bytes_Equal in Heq.
      apply bool_decide_eq_true_1 in Heq as <-. apply list_elem_of_In. exact Hin.
    + intros [-> | Hin]; [contradiction Hlen; reflexivity |].
      exists storageLeafKey. split; [apply list_elem_of_In; exact Hin |].
      apply bool_decide_eq_true_2. reflexivity.
Qed.

Lemma isWatchedAddress_spec (watchedAddresses : list Address) (stateLeafKey : bytes) :
  isWatchedAddress cd watchedAddresses stateLeafKey = true <->
  watchedAddresses = [] \/
  exists addr, addr ∈ watchedAddresses /\ Keccak256 cd addr = stateLeafKey.
Proof.
  unfold isWatchedAddress. destruct (decide _) as [Hlen | Hlen].
  - split; [| reflexivity]. intros _. left.
    destruct watchedAddresses; [reflexivity | discriminate].
  - rewrite existsb_exists. split.
    + intros (a & Hin & Heq). right. exists a. unfold bytes_Equal in Heq.
      apply bool_decide_eq_true_1 in Heq.
      split; [apply list_elem_of_In; exact Hin | exact Heq].
    + intros [-> | (a & Hin & Heq)]; [contradiction Hlen; reflexivity |].
      exists a. split; [apply list_elem_of_In; exact Hin |].
      apply bool_decide_eq_true_2. exact Heq.
Qed.

(** X1.  [isWatchedStorageKey] accepts a storage leaf key exactly when no
    key is watched or the key is one of the watched keys. *)
Theorem X1_isWatchedStorageKey_iff (watchedKeys : list Hash) (storageLeafKey : bytes) :
  isWatchedStorageKey watchedKeys storageLeafKey = true <->
  watchedKeys = [] \/ storageLeafKey ∈ watchedKeys.
Proof. apply isWatchedStorageKey_spec. Qed.

(** X2.  [isWatchedAddress] accepts a state leaf key exactly when no address
    is watched or the key is [Keccak256] of one of the watched addresses. *)
Theorem X2_isWatchedAddress_iff (watchedAddresses : list Address) (stateLeafKey : bytes) :
  isWatchedAddress cd watchedAddresses stateLeafKey = true <->
  watchedAddresses = [] \/
  exists addr, addr ∈ watchedAddresses /\ Keccak256 cd addr = stateLeafKey.
Proof. apply isWatchedAddress_spec. Qed.

End WatchFilters.

Section StorageTraces.
Context (db : Database) (cd : Codec).

Lemma forEach_inv_elem {R A S} (I : S -> Prop) (body : A -> S -> M R S) (l : list A) :
  (forall x s h s', x ∈ l -> I s -> (body x s h).2 = Ok s' -> I s') ->
  forall s h s', I s -> (forEach body l s h).2 = Ok s' -> I s'.
Proof.
  induction l as [| x l IH]; intros Hbody s h s' Hs; simpl.
  - intros [= <-]. exact Hs.
  - unfold bind. pose proof (Hbody x s h) as Hx.
    destruct (body x s h) as [n1 [s1 | e |]]; simpl in *; try discriminate.
    assert (I s1) as Hs1 by (apply Hx; [left | exact Hs | reflexivity]).
    assert (forall y t h0 t', y ∈ l -> I t -> (body y t h0).2 = Ok t' -> I t') as Hl.
    { intros y t h0 t' Hy. apply Hbody. right. exact Hy. }
    specialize (IH Hl s1 (h ++ n1) s' Hs1).
    destruct (forEach body l s1 (h ++ n1)) as [n2 r]. exact IH.
Qed.

Lemma written_type ws isn p :
  storageWritten db cd ws isn p ->
  (sto_NodeType (storageNodeAt db cd p) = Leaf /\
   isWatchedStorageKey ws (sto_LeafKey (storageNodeAt db cd p)) = true) \/
  ((sto_NodeType (storageNodeAt db cd p) = Extension \/
    sto_NodeType (storageNodeAt db cd p) = Branch) /\ isn = true).
Proof.
  intros [_ Hrule]. unfold storageNodeAt. simpl.
  unfold storageRemovalRule in Hrule.
  destruct (nodeTypeAt db cd p) as [[] |]; simpl in *; try discriminate; auto.
  destruct (leafKeyAt db cd p); simpl in *; [auto | discriminate].
Qed.

Lemma buildStorageNodesFromTrie_trace it ws isn output h :
  exists visited rest,
    positions it = visited ++ rest /\
    (buildStorageNodesFromTrie db cd it ws isn output h).1
    = map (storageNodeAt db cd) (filter (storageWritten db cd ws isn) visited) /\
    ((buildStorageNodesFromTrie db cd it ws isn output h).2 = Ok tt ->
     rest = [] /\ it_Error it = None).
Proof.
  unfold buildStorageNodesFromTrie.
  destruct (forEach_flat_map
              (fun p => if decide (storageWritten db cd ws isn p)
                        then [storageNodeAt db cd p] else [])
              (buildStorageNodesFromTrie_body db cd ws isn output)
              (fun p s h' =>
                 or_introl (buildStorageNodesFromTrie_body_records db cd ws isn output p s h'))
              (positions it) tt h)
    as (visited & rest & Hpos & Hrec & Hok).
  exists visited, rest. split; [exact Hpos |]. split.
  - rewrite bind_lift_fst, Hrec, flat_map_filter. reflexivity.
  - intros Hm. apply bind_lift_snd in Hm as (s' & Hs' & Herr).
    split; [eauto |]. destruct (it_Error it); [discriminate | reflexivity].
Qed.


Lemma createdAndUpdatedStorage_body_paths ws isn output p paths h paths' :
  (createdAndUpdatedStorage_body db cd ws isn output p paths h).2 = Ok paths' ->
  paths' = if decide (structuralNode p)
           then <[Bytes2Hex (it_Path p) := true]> paths else paths.
Proof.
  intros Hrun. unfold createdAndUpdatedStorage_body, bytes_Equal in Hrun.
  destruct (decide (structuralNode p)) as [[Hl Hh] | Hn].
  - rewrite Hl in Hrun. rewrite bool_decide_eq_false_2 in Hrun by exact Hh.
    run_body; reflexivity.
  - destruct (it_Leaf p) eqn:Hl; [simpl in Hrun; simplify_eq; reflexivity |].
    case_bool_decide as Hh; [simpl in Hrun; simplify_eq; reflexivity |].
    destruct Hn. split; assumption.
Qed.

End StorageTraces.

Section StorageIncremental.
Context (db : Database) (cd : Codec).

Lemma pathsOf_empty : pathsOf [] ∅.
Proof.
  intros k v. rewrite lookup_empty. split; [discriminate |].
  intros (_ & p & Hp & _). inversion Hp.
Qed.

Lemma pathsOf_markPath l x paths :
  pathsOf l paths -> pathsOf (l ++ [x]) (markPath x paths).
Proof.
  intros Hl k v. unfold markPath. destruct (decide (structuralNode x)) as [Hs | Hn].
  - destruct (decide (Bytes2Hex (it_Path x) = k)) as [<- | Hne].
    + rewrite lookup_insert_eq. split.
      * intros [= <-]. split; [reflexivity |]. exists x.
        split; [apply elem_of_app; right; left | auto].
      * intros [-> _]. reflexivity.
    + rewrite lookup_insert_ne by exact Hne. rewrite (Hl k v). split.
      * intros (-> & p & Hp & Hsp & ->). split; [reflexivity |].
        exists p. split; [apply elem_of_app; left; exact Hp | auto].
      * intros (-> & p & Hp & Hsp & ->). split; [reflexivity |].
        apply elem_of_app in Hp as [Hp | Hp]; [exists p; auto |].
        apply list_elem_of_singleton in Hp as ->. contradiction Hne. reflexivity.
  - rewrite (Hl k v). split.
    + intros (-> & p & Hp & Hsp & ->). split; [reflexivity |].
      exists p. split; [apply elem_of_app; left; exact Hp | auto].
    + intros (-> & p & Hp & Hsp & ->). split; [reflexivity |].
      apply elem_of_app in Hp as [Hp | Hp]; [exists p; auto |].
      apply list_elem_of_singleton in Hp as ->. contradiction.
Qed.

Lemma pathsOf_foldl l l0 paths :
  pathsOf l0 paths ->
  pathsOf (l0 ++ l) (foldl (fun s x => markPath x s) paths l).
Proof.
  revert l0 paths. induction l as [| x l IH]; intros l0 paths H0; simpl.
  - rewrite app_nil_r. exact H0.
  - replace (l0 ++ x :: l) with ((l0 ++ [x]) ++ l) by (rewrite <- app_assoc; reflexivity).
    apply IH, pathsOf_markPath, H0.
Qed.

Lemma createdAndUpdatedStorage_body_step ws isn output :
  step (fun p (_ : gmap string bool) =>
          if decide (storageWritten db cd ws isn p) then [storageNodeAt db cd p] else [])
       markPath
       (createdAndUpdatedStorage_body db cd ws isn output).
Proof.
  intros p paths h. split.
  - left. apply createdAndUpdatedStorage_body_records.
  - intros paths' Hrun. apply (createdAndUpdatedStorage_body_paths db cd _ _ _ _ _ _ _ Hrun).
Qed.

Lemma createdAndUpdatedStorage_trace a b ws isn output h :
  exists visited rest,
    positions (NewDifferenceIterator cd a b) = visited ++ rest /\
    (createdAndUpdatedStorage db cd a b ws isn output h).1
    = map (storageNodeAt db cd) (filter (storageWritten db cd ws isn) visited) /\
    forall diffPathsAtB,
      (createdAndUpdatedStorage db cd a b ws isn output h).2 = Ok diffPathsAtB ->
      rest = [] /\ pathsOf (positions (NewDifferenceIterator cd a b)) diffPathsAtB.
Proof.
  unfold createdAndUpdatedStorage. cbv zeta.
  destruct (forEach_emitted _ _ _ (createdAndUpdatedStorage_body_step ws isn output)
              (positions (NewDifferenceIterator cd a b)) ∅ h)
    as (visited & rest & Hpos & Hrec & Hok).
  exists visited, rest. split; [exact Hpos |]. split.
  - rewrite bind_lift_fst, Hrec, emitted_flat_map, flat_map_filter. reflexivity.
  - intros paths Hm. apply bind_lift_snd in Hm as (s' & Hs' & Herr).
    destruct (Hok s' Hs') as [-> ->]. split; [reflexivity |].
    case_match; simplify_eq.
    apply (pathsOf_foldl _ [] ∅ pathsOf_empty).
Qed.


Lemma deletedOrUpdatedStorage_trace a b diffPathsAtB ws isn output h :
  exists visited rest,
    positions (NewDifferenceIterator cd b a) = visited ++ rest /\
    (deletedOrUpdatedStorage db cd a b diffPathsAtB ws isn output h).1
    = map (fun p => removedStorageNode (it_Path p))
        (filter (fun p => removedHere diffPathsAtB p /\
                          storageRemovalRule db cd ws isn p = true) visited).
Proof.
  unfold deletedOrUpdatedStorage.
  destruct (forEach_flat_map
              (fun p => if decide (removedHere diffPathsAtB p /\
                                   storageRemovalRule db cd ws isn p = true)
                        then [removedStorageNode (it_Path p)] else [])
              (deletedOrUpdatedStorage_body db cd diffPathsAtB ws isn output)
              (fun p s h' =>
                 or_introl (deletedOrUpdatedStorage_body_records db cd _ _ _ _ p s h'))
              (positions (NewDifferenceIterator cd b a)) tt h)
    as (visited & rest & Hpos & Hrec & _).
  exists visited, rest. split; [exact Hpos |].
  rewrite bind_lift_fst, Hrec, flat_map_filter. reflexivity.
Qed.

Lemma bind_run {R A B} (m : M R A) (k : A -> M R B) h :
  bind m k h
  = match (m h).2 with
    | Ok a => ((m h).1 ++ (k a (h ++ (m h).1)).1, (k a (h ++ (m h).1)).2)
    | Err e => ((m h).1, Err e)
    | Panic => ((m h).1, Panic)
    end.
Proof.
  unfold bind. destruct (m h) as [n1 [a | e |]]; simpl; try reflexivity.
  destruct (k a (h ++ n1)); reflexivity.
Qed.

(** The records of [buildStorageNodesIncremental]: those of the B-side pass,
    whose paths are marked, then those of the A-side pass, which are
    [Removed] records at paths that are not marked. *)
Lemma buildStorageNodesIncremental_shape oldSR newSR ws isn output h :
  exists tB tA (marked : string -> Prop),
    (buildStorageNodesIncremental db cd oldSR newSR ws isn output h).1 = tB ++ tA /\
    Forall (fun r => exists p, storageWritten db cd ws isn p /\
                               r = storageNodeAt db cd p /\
                               marked (Bytes2Hex (sto_Path r))) tB /\
    Forall (fun r => r = removedStorageNode (sto_Path r) /\
                     ~ marked (Bytes2Hex (sto_Path r))) tA.
Proof.
  unfold buildStorageNodesIncremental.
  destruct (bytes_Equal newSR oldSR).
  { exists [], [], (fun _ => True). repeat split; constructor. }
  rewrite bind_run. unfold lift at 1 2. simpl.
  destruct (OpenTrie db oldSR) as [e | oldTrie]; simpl.
  { exists [], [], (fun _ => True). repeat split; constructor. }
  rewrite bind_run. unfold lift at 1 2. simpl.
  destruct (OpenTrie db newSR) as [e | newTrie]; simpl.
  { exists [], [], (fun _ => True). repeat split; constructor. }
  rewrite bind_run.
  match goal with
  | |- context [createdAndUpdatedStorage db cd ?a ?b ws isn output ?hh] =>
      destruct (createdAndUpdatedStorage_trace a b ws isn output hh)
        as (visited & rest & Hpos & Hrec & Hok);
      destruct (createdAndUpdatedStorage db cd a b ws isn output hh)
        as [tB [paths | e |]] eqn:Hrun
  end; simpl in *; subst tB.
  - destruct (Hok paths eq_refl) as [-> Hpaths]. rewrite app_nil_r in Hpos.
    match goal with
    | |- context [deletedOrUpdatedStorage db cd ?a ?b paths ws isn output ?hh] =>
        destruct (deletedOrUpdatedStorage_trace a b paths ws isn output hh)
          as (visA & restA & _ & HrecA)
    end.
    rewrite HrecA.
    exists (map (storageNodeAt db cd) (filter (storageWritten db cd ws isn) visited)),
      (map (fun p => removedStorageNode (it_Path p))
         (filter (fun p => removedHere paths p /\
                           storageRemovalRule db cd ws isn p = true) visA)),
      (fun k => paths !! k = Some true).
    split; [reflexivity |]. split.
    + apply List.Forall_map, Forall_forall. intros p Hp.
      apply list_elem_of_filter in Hp as [Hw Hp]. exists p.
      split; [exact Hw |]. split; [reflexivity |]. simpl.
      apply Hpaths. split; [reflexivity |]. exists p.
      rewrite Hpos. destruct Hw as [Hs _]. auto.
    + apply List.Forall_map, Forall_forall. intros p Hp.
      apply list_elem_of_filter in Hp as [[[_ Hnone] _] _]. simpl.
      split; [reflexivity |]. rewrite Hnone. discriminate.
  - exists (map (storageNodeAt db cd) (filter (storageWritten db cd ws isn) visited)),
      [], (fun _ => True).
    rewrite app_nil_r. split; [reflexivity |]. split; [| constructor].
    apply List.Forall_map, Forall_forall. intros p Hp.
    apply list_elem_of_filter in Hp as [Hw Hp]. exists p. auto.
  - exists (map (storageNodeAt db cd) (filter (storageWritten db cd ws isn) visited)),
      [], (fun _ => True).
    rewrite app_nil_r. split; [reflexivity |]. split; [| constructor].
    apply List.Forall_map, Forall_forall. intros p Hp.
    apply list_elem_of_filter in Hp as [Hw Hp]. exists p. auto.
Qed.

End StorageIncremental.

Section StorageProperties.
Context (db : Database) (cd : Codec).

Lemma written_filtered ws isn p :
  storageWritten db cd ws isn p ->
  (sto_NodeType (storageNodeAt db cd p) = Leaf \/
   sto_NodeType (storageNodeAt db cd p) = Extension \/
   sto_NodeType (storageNodeAt db cd p) = Branch) /\
  storageFiltered ws isn (storageNodeAt db cd p).
Proof.
  intros Hw. destruct (written_type db cd ws isn p Hw) as [[Hty Hk] | [Hty ->]].
  - split; [auto |]. split.
    + intros _. rewrite Hty. split; discriminate.
    + intros Hne _. apply isWatchedStorageKey_spec in Hk as [-> | Hk];
        [contradiction | exact Hk].
  - split; [tauto |]. split; [discriminate |].
    intros _ Hl. destruct Hty as [Hty | Hty]; rewrite Hty in Hl; discriminate.
Qed.

(** X5.  In an incremental storage diff no path is written both as removed
    and as created or updated: a [Removed] record and a record of another
    type never carry the same path. *)
Theorem X5_incremental_removed_and_written_paths_differ
    (oldSR newSR : Hash) (ws : list Hash) (isn : bool)
    (output : Sink StorageNode) (h : list StorageNode) (r1 r2 : StorageNode) :
  r1 ∈ (buildStorageNodesIncremental db cd oldSR newSR ws isn output h).1 ->
  r2 ∈ (buildStorageNodesIncremental db cd oldSR newSR ws isn output h).1 ->
  sto_NodeType r1 = Removed -> sto_NodeType r2 <> Removed ->
  sto_Path r1 <> sto_Path r2.
Proof.
  destruct (buildStorageNodesIncremental_shape db cd oldSR newSR ws isn output h)
    as (tB & tA & marked & -> & HB & HA).
  rewrite Forall_forall in HB, HA.
  intros H1 H2 Hrem Hnot Heq.
  apply elem_of_app in H1 as [H1 | H1].
  { destruct (HB r1 H1) as (p & Hw & -> & _).
    destruct (written_filtered ws isn p Hw) as [[Ht | [Ht | Ht]] _];
      rewrite Ht in Hrem; discriminate. }
  apply elem_of_app in H2 as [H2 | H2].
  - destruct (HB r2 H2) as (_ & _ & _ & Hm). destruct (HA r1 H1) as [_ Hn].
    apply Hn. rewrite Heq. exact Hm.
  - destruct (HA r2 H2) as [Hr _]. rewrite Hr in Hnot. contradiction Hnot. reflexivity.
Qed.

(** X6.  Every record of an incremental storage diff is a leaf, an
    extension, a branch or a [Removed] record with an empty value and no
    key; without [intermediateNodes] no extension and no branch is written;
    when storage keys are watched, every leaf written has a watched key. *)
Theorem X6_incremental_storage_filters
    (oldSR newSR : Hash) (ws : list Hash) (isn : bool)
    (output : Sink StorageNode) (h : list StorageNode) (r : StorageNode) :
  r ∈ (buildStorageNodesIncremental db cd oldSR newSR ws isn output h).1 ->
  (sto_NodeType r = Leaf \/ sto_NodeType r = Extension \/ sto_NodeType r = Branch \/
   r = {| sto_NodeType := Removed; sto_Path := sto_Path r;
          sto_NodeValue := []; sto_LeafKey := [] |}) /\
  (isn = false -> sto_NodeType r <> Extension /\ sto_NodeType r <> Branch) /\
  (ws <> [] -> sto_NodeType r = Leaf -> sto_LeafKey r ∈ ws).
Proof.
  destruct (buildStorageNodesIncremental_shape db cd oldSR newSR ws isn output h)
    as (tB & tA & marked & -> & HB & HA).
  rewrite Forall_forall in HB, HA. intros Hr.
  apply elem_of_app in Hr as [Hr | Hr].
  - destruct (HB r Hr) as (p & Hw & -> & _).
    destruct (written_filtered ws isn p Hw) as [Hty [Hi Hk]].
    split; [tauto |]. split; assumption.
  - destruct (HA r Hr) as [Heq _]. split; [auto |].
    rewrite Heq. simpl. split; [intros _; split; discriminate | discriminate].
Qed.

Lemma buildStorageNodesEventual_records sr ws isn output h r :
  r ∈ (buildStorageNodesEventual db cd sr ws isn output h).1 ->
  exists p, storageWritten db cd ws isn p /\ r = storageNodeAt db cd p.
Proof.
  unfold buildStorageNodesEventual.
  destruct (bytes_Equal sr (emptyContractRoot cd)); [intros Hr; inversion Hr |].
  rewrite bind_run. unfold lift at 1 2. simpl.
  destruct (OpenTrie db sr) as [e | sTrie]; simpl; [intros Hr; inversion Hr |].
  match goal with
  | |- context [buildStorageNodesFromTrie db cd ?it ws isn output ?hh] =>
      destruct (buildStorageNodesFromTrie_trace db cd it ws isn output hh)
        as (visited & rest & _ & -> & _)
  end.
  intros Hr. apply list_elem_of_fmap in Hr as (p & -> & Hp).
  apply list_elem_of_filter in Hp as [Hw _]. eauto.
Qed.

(** X7.  The eventual storage walk writes nothing and returns no error for
    the root of the empty trie, whether the store can open a trie there or
    not.  For any root, every record it writes is a leaf, an extension or a
    branch, never a [Removed] record; without [intermediateNodes] no
    extension and no branch is written; when storage keys are watched, every
    leaf written has a watched key. *)
Theorem X7_eventual_storage_walk
    (sr : Hash) (ws : list Hash) (isn : bool)
    (output : Sink StorageNode) (h : list StorageNode) :
  (sr = emptyContractRoot cd ->
   buildStorageNodesEventual db cd sr ws isn output h = ([], Ok tt)) /\
  forall r,
    r ∈ (buildStorageNodesEventual db cd sr ws isn output h).1 ->
    (sto_NodeType r = Leaf \/ sto_NodeType r = Extension \/ sto_NodeType r = Branch) /\
    (isn = false -> sto_NodeType r <> Extension /\ sto_NodeType r <> Branch) /\
    (ws <> [] -> sto_NodeType r = Leaf -> sto_LeafKey r ∈ ws).
Proof.
  split.
  - intros ->. unfold buildStorageNodesEventual, bytes_Equal.
    rewrite bool_decide_eq_true_2 by reflexivity. reflexivity.
  - intros r Hr.
    destruct (buildStorageNodesEventual_records sr ws isn output h r Hr)
      as (p & Hw & ->).
    destruct (written_filtered ws isn p Hw) as [Hty [Hi Hk]]. auto.
Qed.

Ltac obeys_walk :=
  first
    [ apply obeys_ret
    | apply obeys_lift
    | apply obeys_emit
    | apply obeys_bind; [| intros ?]
    | apply obeys_forEach; intros ? ?
    | match goal with
      | |- obeys _ _ (match ?x with _ => _ end) => destruct x
      | |- obeys _ _ (if ?x then _ else _) => destruct x
      | |- obeys _ _ (let '(_, _) := ?x in _) => destruct x
      end ].

Lemma buildStorageNodesIncremental_obeys oldSR newSR ws isn output :
  obeys output [""] (buildStorageNodesIncremental db cd oldSR newSR ws isn output).
Proof.
  unfold buildStorageNodesIncremental, createdAndUpdatedStorage,
    deletedOrUpdatedStorage, createdAndUpdatedStorage_body,
    deletedOrUpdatedStorage_body.
  repeat obeys_walk.
Qed.

Lemma buildStorageNodesEventual_obeys sr ws isn output :
  obeys output [""] (buildStorageNodesEventual db cd sr ws isn output).
Proof.
  unfold buildStorageNodesEventual, buildStorageNodesFromTrie,
    buildStorageNodesFromTrie_body.
  repeat obeys_walk.
Qed.

(** X8.  When the storage callback returns an error on a record during an
    incremental storage diff, the diff writes no further record and returns
    that error itself, unchanged. *)
Theorem X8_incremental_storage_sink_error
    (oldSR newSR : Hash) (ws : list Hash) (isn : bool)
    (output : Sink StorageNode) (h pre post : list StorageNode)
    (x : StorageNode) (e : error) :
  (buildStorageNodesIncremental db cd oldSR newSR ws isn output h).1
    = pre ++ x :: post ->
  output (h ++ pre) x = Some e ->
  post = [] /\
  (buildStorageNodesIncremental db cd oldSR newSR ws isn output h).2 = Err e.
Proof.
  intros Hrec Hout.
  destruct (buildStorageNodesIncremental_obeys oldSR newSR ws isn output
              h pre x post e Hrec Hout) as [-> (ctx & Hctx & Hres)].
  apply list_elem_of_singleton in Hctx as ->. auto.
Qed.

(** X9.  When the storage callback returns an error on a record during the
    eventual storage walk, the walk writes no further record and returns
    that error itself, unchanged. *)
Theorem X9_eventual_storage_sink_error
    (sr : Hash) (ws : list Hash) (isn : bool)
    (output : Sink StorageNode) (h pre post : list StorageNode)
    (x : StorageNode) (e : error) :
  (buildStorageNodesEventual db cd sr ws isn output h).1 = pre ++ x :: post ->
  output (h ++ pre) x = Some e ->
  post = [] /\
  (buildStorageNodesEventual db cd sr ws isn output h).2 = Err e.
Proof.
  intros Hrec Hout.
  destruct (buildStorageNodesEventual_obeys sr ws isn output
              h pre x post e Hrec Hout) as [-> (ctx & Hctx & Hres)].
  apply list_elem_of_singleton in Hctx as ->. auto.
Qed.

End StorageProperties.

(** * The shape of a state diff *)

Section StatePasses.
Context (db : Database) (cd : Codec).

Lemma insert_true_mono (m : gmap string bool) k k' :
  m !! k = Some true -> <[k' := true]> m !! k = Some true.
Proof.
  intros Hk. destruct (decide (k' = k)) as [-> | Hne];
    [apply lookup_insert_eq | rewrite lookup_insert_ne by exact Hne; exact Hk].
Qed.

Lemma anchored_insert paths k' (B : AccountMap) :
  map_Forall (anchored paths) B -> map_Forall (anchored (<[k' := true]> paths)) B.
Proof. intros HB k w Hk. apply insert_true_mono, (HB k w Hk). Qed.

Lemma forEach_records_in_state {R A S} (Q : R -> Prop) (P : R -> S -> Prop)
    (body : A -> S -> M R S) (l : list A) :
  (forall x s h, Forall Q (body x s h).1) ->
  (forall x s h s', (body x s h).2 = Ok s' -> Forall (fun r => P r s') (body x s h).1) ->
  (forall r x s h s', P r s -> (body x s h).2 = Ok s' -> P r s') ->
  forall s h,
    Forall Q (forEach body l s h).1 /\
    forall s', (forEach body l s h).2 = Ok s' ->
               Forall (fun r => P r s') (forEach body l s h).1.
Proof.
  intros HQ Hnew Hkeep. induction l as [| x l IH]; intros s h; simpl.
  - split; [constructor | intros; constructor].
  - rewrite bind_run. specialize (HQ x s h). pose proof (Hnew x s h) as Hn.
    destruct (body x s h) as [n1 [s1 | e |]] eqn:Hb; simpl in *;
      try (split; [exact HQ | discriminate]).
    destruct (IH s1 (h ++ n1)) as [HQ2 HP2]. split.
    + apply Forall_app. split; assumption.
    + intros s' Hs'. apply Forall_app. split; [| apply HP2, Hs'].
      specialize (Hn s1 eq_refl).
      assert (forall r, P r s1 -> P r s') as Hmono.
      { intros r Hr.
        apply (forEach_inv (P r) body l
                 (fun y t h0 t' Ht Hy => Hkeep r y t h0 t' Ht Hy) s1 (h ++ n1) s' Hr Hs'). }
      eapply Forall_impl; [exact Hn | exact Hmono].
Qed.

Lemma withIntermediateNodes_body_facts output p st h :
  Forall intermediateNode
    (createdAndUpdatedStateWithIntermediateNodes_body db cd output p st h).1 /\
  forall st',
    (createdAndUpdatedStateWithIntermediateNodes_body db cd output p st h).2 = Ok st' ->
    (forall k, st.2 !! k = Some true -> st'.2 !! k = Some true) /\
    Forall (fun r => st'.2 !! Bytes2Hex (Path r) = Some true)
      (createdAndUpdatedStateWithIntermediateNodes_body db cd output p st h).1 /\
    (map_Forall (anchored st.2) st.1 -> map_Forall (anchored st'.2) st'.1).
Proof.
  destruct st as [B paths].
  unfold createdAndUpdatedStateWithIntermediateNodes_body, intermediateNode.
  run_body.
  all: split;
    [ first [solve [constructor] | constructor; [simpl; auto | constructor]] |].
  all: intros st' Hst; simplify_eq; simpl.
  all: split; [ try (intros k Hk; first [exact Hk | apply insert_true_mono, Hk]) |].
  all: split;
    [ first [solve [constructor]
            | constructor; [simpl; apply lookup_insert_eq | constructor]] |].
  all: intros HB; first
                [ exact HB
                | apply map_Forall_insert_2;
                  [unfold anchored; simpl; apply lookup_insert_eq
                  | apply anchored_insert, HB]
                | apply anchored_insert, HB ].
Qed.

Lemma withIntermediateNodes_records a b output h :
  Forall intermediateNode
    (createdAndUpdatedStateWithIntermediateNodes db cd a b output h).1 /\
  forall B paths,
    (createdAndUpdatedStateWithIntermediateNodes db cd a b output h).2 = Ok (B, paths) ->
    Forall (fun r => paths !! Bytes2Hex (Path r) = Some true)
      (createdAndUpdatedStateWithIntermediateNodes db cd a b output h).1 /\
    map_Forall (anchored paths) B.
Proof.
  unfold createdAndUpdatedStateWithIntermediateNodes. cbv zeta.
  rewrite bind_lift_fst.
  destruct (forEach_records_in_state intermediateNode
              (fun r (st : AccountMap * gmap string bool) =>
                 st.2 !! Bytes2Hex (Path r) = Some true)
              (createdAndUpdatedStateWithIntermediateNodes_body db cd output)
              (positions (NewDifferenceIterator cd a b))
              (fun x s h0 => proj1 (withIntermediateNodes_body_facts output x s h0))
              (fun x s h0 s' Hs =>
                 proj1 (proj2 (proj2 (withIntermediateNodes_body_facts output x s h0) s' Hs)))
              (fun r x s h0 s' Hr Hs =>
                 proj1 (proj2 (withIntermediateNodes_body_facts output x s h0) s' Hs) _ Hr)
              (∅, ∅) h) as [HQ HP].
  split; [exact HQ |].
  intros B paths Hrun. apply bind_lift_snd in Hrun as (st & Hloop & Herr).
  case_match; simplify_eq. split; [apply (HP _ Hloop) |].
  apply (forEach_inv (fun st : AccountMap * gmap string bool =>
                        map_Forall (anchored st.2) st.1)
           _ _
           (fun x s h0 s' Hs Hb =>
              proj2 (proj2 (proj2 (withIntermediateNodes_body_facts output x s h0) s' Hb)) Hs)
           _ _ _ (map_Forall_empty _) Hloop).
Qed.

Lemma createdAndUpdatedState_body_anchored ws p st st' :
  createdAndUpdatedState_body db cd ws p st = Ok st' ->
  map_Forall (anchored st.2) st.1 -> map_Forall (anchored st'.2) st'.1.
Proof.
  destruct st as [B paths]. unfold createdAndUpdatedState_body.
  intros Hrun HB. run_body;
    first
      [ exact HB
      | apply map_Forall_insert_2;
        [unfold anchored; simpl; apply lookup_insert_eq | apply anchored_insert, HB]
      | apply anchored_insert, HB ].
Qed.

Lemma createdAndUpdatedState_anchored a b ws B paths :
  createdAndUpdatedState db cd a b ws = Ok (B, paths) ->
  map_Forall (anchored paths) B.
Proof.
  unfold createdAndUpdatedState. cbv zeta.
  destruct (forEachR _ _ _) as [st | e |] eqn:Hloop; simpl; try discriminate.
  intros Hret. case_match; simplify_eq.
  apply (forEachR_inv (fun st : AccountMap * gmap string bool =>
                         map_Forall (anchored st.2) st.1)
           _ _ (fun x s s' Hs Hb => createdAndUpdatedState_body_anchored _ x s s' Hb Hs)
           _ _ (map_Forall_empty _) Hloop).
Qed.

End StatePasses.

Section ReconcileShape.
Context (db : Database) (cd : Codec).
Context (rangeAccounts : AccountMap -> list (string * accountWrapper)).
Context (Hrange : rangeOrder rangeAccounts).

Lemma wrapM_fst {R A} prefix (m : M R A) h : (wrapM prefix m h).1 = (m h).1.
Proof. unfold wrapM. destruct (m h). reflexivity. Qed.

Lemma wrapM_Ok {R A} prefix (m : M R A) h a :
  (wrapM prefix m h).2 = Ok a <-> (m h).2 = Ok a.
Proof.
  unfold wrapM. destruct (m h) as [n [a' | e |]]; simpl; split; congruence.
Qed.

Lemma emitted_updates_entries ws isn keys (maps : AccountMap * AccountMap) :
  NoDup keys -> (forall k, k ∈ keys -> is_Some (maps.1 !! k)) ->
  Forall (fun r => exists k w, maps.1 !! k = Some w /\
                               NodeType_ r = aw_NodeType w /\
                               Path r = aw_Path w /\ LeafKey r = aw_LeafKey w)
    (emitted (fun key maps => [updatedLeaf db cd ws isn key maps]) deleteKey keys maps).
Proof.
  revert maps. induction keys as [| key keys IH]; intros maps Hnd Hdom; simpl;
    [constructor |].
  apply NoDup_cons in Hnd as [Hnin Hnd]. constructor.
  - destruct (Hdom key) as [w Hw]; [left |]. exists key, w.
    unfold updatedLeaf, mapIndex. simpl. rewrite Hw. simpl. auto.
  - eapply Forall_impl.
    + apply IH; [exact Hnd |]. intros k Hk. unfold deleteKey. simpl.
      rewrite lookup_delete_ne; [apply Hdom; right; exact Hk |].
      intros ->. contradiction.
    + intros r (k & w & Hk & Hr). unfold deleteKey in Hk. simpl in Hk.
      apply lookup_delete_Some in Hk as [_ Hk]. eauto.
Qed.

End ReconcileShape.

Section ReconcileRecords.
Context (db : Database) (cd : Codec).
Context (rangeAccounts : AccountMap -> list (string * accountWrapper)).
Context (Hrange : rangeOrder rangeAccounts).

Lemma NoDup_leafKeyHex (l : list StateNode) :
  NoDup (map leafKeyHex l) -> NoDup (map LeafKey l).
Proof.
  intros Hnd. apply (NoDup_fmap_1 Bytes2Hex).
  replace (Bytes2Hex <$> map LeafKey l) with (map leafKeyHex l); [exact Hnd |].
  clear. induction l; simpl; [reflexivity | f_equal; assumption].
Qed.

(** The records of Pass 3 on a map of Pass 1: leaves at marked paths, with
    pairwise distinct leaf keys. *)
Lemma reconcile_records B A params output h paths :
  fromPass1 db cd B -> map_Forall (anchored paths) B ->
  Forall (fun r => NodeType_ r = Leaf /\ paths !! Bytes2Hex (Path r) = Some true)
    (reconcile db cd rangeAccounts B A params output h).1 /\
  NoDup (map leafKeyHex (reconcile db cd rangeAccounts B A params output h).1).
Proof.
  intros Hfrom Hanch.
  destruct (fromPass1_recorded db cd B Hfrom) as [watched Hrec].
  unfold reconcile. rewrite bind_run, wrapM_fst.
  set (keys := findIntersection (sortKeys B) (sortKeys A)).
  destruct (buildAccountUpdates_trace db cd B A keys (WatchedStorageSlots params)
              (IntermediateStorageNodes params) output h)
    as (visited & rest & Hl & Hupd & Hok).
  pose proof (updatedKeys_NoDup B A) as Hnd. fold keys in Hnd. rewrite Hl in Hnd.
  apply NoDup_app in Hnd as (Hndv & _ & _).
  assert (forall k, k ∈ visited -> is_Some (B !! k)) as Hdom.
  { intros k Hk. apply (updatedKeys_elem B A k). fold keys. rewrite Hl.
    apply elem_of_app. left. exact Hk. }
  assert (Forall (fun r => NodeType_ r = Leaf /\
                           paths !! Bytes2Hex (Path r) = Some true)
            (buildAccountUpdates db cd B A keys (WatchedStorageSlots params)
               (IntermediateStorageNodes params) output h).1) as Hu.
  { rewrite Hupd. eapply Forall_impl.
    - apply (emitted_updates_entries db cd _ _ visited (B, A) Hndv Hdom).
    - intros r (k & w & Hk & Hty & Hp & _). simpl in Hk.
      destruct (Hrec k w Hk) as (_ & Hleaf & _). split; [congruence |].
      rewrite Hp. apply (Hanch k w Hk). }
  assert (map leafKeyHex
            (buildAccountUpdates db cd B A keys (WatchedStorageSlots params)
               (IntermediateStorageNodes params) output h).1 = visited) as Huk.
  { rewrite Hupd.
    apply (emitted_updates_keys db cd _ _ watched visited (B, A) Hndv Hdom Hrec). }
  destruct ((wrapM "error building diff for updated accounts: "
               (buildAccountUpdates db cd B A keys (WatchedStorageSlots params)
                  (IntermediateStorageNodes params) output) h).2)
    as [maps | e |] eqn:Hw.
  2, 3: simpl; split; [exact Hu | rewrite Huk; exact Hndv].
  simpl. apply wrapM_Ok in Hw. destruct (Hok maps Hw) as [-> ->].
  rewrite app_nil_r in Hl. subst visited. rewrite wrapM_fst.
  match goal with
  | |- context [buildAccountCreations db cd rangeAccounts ?m ?ws ?isn output ?hh] =>
      destruct (buildAccountCreations_trace db cd rangeAccounts m ws isn output hh)
        as (vis & rst & Hr & Hcre & _)
  end.
  rewrite Hcre.
  assert (forall entry, entry ∈ vis ->
            entry ∈ rangeAccounts (foldl (fun s x => deleteKey x s) (B, A) keys).1) as Hsub.
  { intros entry He. rewrite Hr. apply elem_of_app. left. exact He. }
  split.
  - apply Forall_app. split; [exact Hu |].
    apply List.Forall_map, Forall_forall. intros [k w] Hin.
    destruct (remaining_entry db cd rangeAccounts Hrange B A keys k w Hfrom (Hsub _ Hin))
      as [Hlook _].
    apply (proj2 (foldl_deleteKey keys (B, A))) in Hlook. simpl in Hlook.
    destruct (Hrec k w Hlook) as (_ & Hleaf & _).
    split; [exact Hleaf | apply (Hanch k w Hlook)].
  - rewrite map_app, Huk.
    rewrite (created_keys db cd rangeAccounts Hrange B A keys _ _ vis Hfrom Hsub).
    apply NoDup_app. split; [exact Hndv |]. split.
    + intros k Hk Hk'. apply list_elem_of_fmap in Hk' as ([k' w] & -> & Hin).
      destruct (remaining_entry db cd rangeAccounts Hrange B A keys k' w Hfrom
                  (Hsub _ Hin)) as [Hlook _].
      destruct (proj1 (foldl_deleteKey keys (B, A)) k' Hk) as [Hnone _].
      simpl in Hk. rewrite Hnone in Hlook. discriminate.
    + pose proof (NoDup_fst_map_to_list
                    (foldl (fun s x => deleteKey x s) (B, A) keys).1) as Hm.
      rewrite <- (Hrange _), Hr, fmap_app in Hm.
      apply NoDup_app in Hm as (Hm & _ & _). exact Hm.
Qed.

End ReconcileRecords.

Section StateShape.
Context (db : Database) (cd : Codec).
Context (rangeAccounts : AccountMap -> list (string * accountWrapper)).
Context (Hrange : rangeOrder rangeAccounts).

(** Pass 2 followed by Pass 3, on the results of Pass 1. *)
Lemma passes23_shape a b B paths params output h :
  fromPass1 db cd B -> map_Forall (anchored paths) B ->
  exists t2 t3,
    (bind (wrapM "error collecting deletedOrUpdatedNodes: "
             (deletedOrUpdatedState db cd a b paths output))
       (fun diffAccountsAtA =>
          reconcile db cd rangeAccounts B diffAccountsAtA params output) h).1
    = t2 ++ t3 /\
    Forall (fun r => r = removedStateNode (Path r) /\
                     paths !! Bytes2Hex (Path r) <> Some true) t2 /\
    Forall (fun r => NodeType_ r = Leaf /\
                     paths !! Bytes2Hex (Path r) = Some true) t3 /\
    NoDup (map leafKeyHex t3).
Proof.
  intros Hfrom Hanch. rewrite bind_run, !wrapM_fst.
  destruct (deletedOrUpdatedState_trace db cd a b paths output h)
    as (visited & rest & _ & Hrec & _).
  assert (Forall (fun r => r = removedStateNode (Path r) /\
                           paths !! Bytes2Hex (Path r) <> Some true)
            (deletedOrUpdatedState db cd a b paths output h).1) as H2.
  { rewrite Hrec. apply List.Forall_map, Forall_forall. intros p Hp.
    apply list_elem_of_filter in Hp as [[_ Hnone] _]. simpl.
    split; [reflexivity | rewrite Hnone; discriminate]. }
  destruct ((wrapM "error collecting deletedOrUpdatedNodes: "
               (deletedOrUpdatedState db cd a b paths output) h).2)
    as [A | e |]; simpl.
  - destruct (reconcile_records db cd rangeAccounts Hrange B A params output
                (h ++ (deletedOrUpdatedState db cd a b paths output h).1)
                paths Hfrom Hanch) as [H3 Hnd].
    eexists _, _. split; [reflexivity |]. auto.
  - exists (deletedOrUpdatedState db cd a b paths output h).1, [].
    rewrite app_nil_r. repeat split; [exact H2 | constructor | constructor].
  - exists (deletedOrUpdatedState db cd a b paths output h).1, [].
    rewrite app_nil_r. repeat split; [exact H2 | constructor | constructor].
Qed.

End StateShape.

Section WholeDiff.
Context (db : Database) (cd : Codec).
Context (rangeAccounts : AccountMap -> list (string * accountWrapper)).
Context (Hrange : rangeOrder rangeAccounts).

(** The records of a state diff: the intermediate nodes of Pass 1, the
    [Removed] records of Pass 2, the leaves of Pass 3.  The paths of the
    first and the third group are marked, those of the second are not. *)
Lemma WriteStateDiffObject_shape args params output h :
  exists t1 t2 t3 (marked : string -> Prop),
    (WriteStateDiffObject db cd rangeAccounts args params output h).1
    = t1 ++ t2 ++ t3 /\
    Forall (fun r => intermediateNode r /\ marked (Bytes2Hex (Path r))) t1 /\
    (IntermediateStateNodes params = false \/ WatchedAddresses params <> [] ->
     t1 = []) /\
    Forall (fun r => r = removedStateNode (Path r) /\
                     ~ marked (Bytes2Hex (Path r))) t2 /\
    Forall (fun r => NodeType_ r = Leaf /\ marked (Bytes2Hex (Path r))) t3 /\
    NoDup (map leafKeyHex t3).
Proof.
  unfold WriteStateDiffObject.
  destruct (negb (IntermediateStateNodes params)
            || bool_decide (0 < length (WatchedAddresses params))) eqn:Hcond.
  - unfold buildStateDiffWithoutIntermediateStateNodes.
    rewrite bind_run. unfold lift at 1 2. simpl.
    destruct (openTries db args) as [[oldTrie newTrie] | e |]; simpl.
    2, 3: exists [], [], [], (fun _ => True); repeat split; constructor.
    rewrite bind_run. unfold lift at 1 2. simpl.
    destruct (createdAndUpdatedState db cd (trie_NodeIterator oldTrie [])
                (trie_NodeIterator newTrie []) (WatchedAddresses params))
      as [[B paths] | e |] eqn:Hp1; simpl.
    2, 3: exists [], [], [], (fun _ => True); repeat split; constructor.
    match goal with
    | |- context [bind _ _ ?hh] =>
        destruct (passes23_shape db cd rangeAccounts Hrange
                    (trie_NodeIterator oldTrie []) (trie_NodeIterator newTrie [])
                    B paths params output hh
                    (fromCreatedAndUpdatedState db cd B _ _ _ paths Hp1)
                    (createdAndUpdatedState_anchored db cd _ _ _ B paths Hp1))
          as (t2 & t3 & Htr & H2 & H3 & Hnd)
    end.
    rewrite Htr. exists [], t2, t3, (fun k => paths !! k = Some true).
    split; [reflexivity |]. split; [constructor |]. split; [reflexivity |]. auto.
  - apply orb_false_elim in Hcond as [Hisn Hw].
    apply negb_false_iff in Hisn. apply bool_decide_eq_false_1 in Hw.
    assert (IntermediateStateNodes params = false \/ WatchedAddresses params <> [] ->
            forall l : list StateNode, l = []) as Hno.
    { intros [Hf | Hne]; [congruence |].
      destruct (WatchedAddresses params); [contradiction |]. simpl in Hw. lia. }
    unfold buildStateDiffWithIntermediateStateNodes.
    rewrite bind_run. unfold lift at 1 2. simpl.
    destruct (openTries db args) as [[oldTrie newTrie] | e |]; simpl.
    2, 3: exists [], [], [], (fun _ => True); repeat split; constructor.
    rewrite bind_run, wrapM_fst.
    match goal with
    | |- context [createdAndUpdatedStateWithIntermediateNodes db cd ?a ?b output ?hh] =>
        destruct (withIntermediateNodes_records db cd a b output hh) as [Hint Hok];
        destruct ((wrapM "error collecting createdAndUpdatedNodes: "
                     (createdAndUpdatedStateWithIntermediateNodes db cd a b output) hh).2)
          as [[B paths] | e |] eqn:Hp1; simpl
    end.
    + apply wrapM_Ok in Hp1. destruct (Hok B paths Hp1) as [Hmark Hanch].
      match goal with
      | |- context [bind _ _ ?hh] =>
          destruct (passes23_shape db cd rangeAccounts Hrange
                      (trie_NodeIterator oldTrie []) (trie_NodeIterator newTrie [])
                      B paths params output hh
                      (fromWithIntermediateNodes db cd B _ _ _ _ paths Hp1) Hanch)
            as (t2 & t3 & Htr & H2 & H3 & Hnd)
      end.
      rewrite Htr. eexists _, t2, t3, (fun k => paths !! k = Some true).
      split; [reflexivity |]. split.
      { apply Forall_and. split; assumption. }
      split; [intros Hc; apply (Hno Hc) |]. auto.
    + match goal with
      | |- exists t1 t2 t3 marked, ?T = _ /\ _ => exists T, [], [], (fun _ => True)
      end.
      split; [rewrite !app_nil_r; reflexivity |]. split.
      { eapply Forall_impl; [exact Hint | auto]. }
      split; [intros Hc; apply (Hno Hc) |]. repeat split; constructor.
    + match goal with
      | |- exists t1 t2 t3 marked, ?T = _ /\ _ => exists T, [], [], (fun _ => True)
      end.
      split; [rewrite !app_nil_r; reflexivity |]. split.
      { eapply Forall_impl; [exact Hint | auto]. }
      split; [intros Hc; apply (Hno Hc) |]. repeat split; constructor.
Qed.

End WholeDiff.

Section WholeDiffProperties.
Context (db : Database) (cd : Codec).
Context (rangeAccounts : AccountMap -> list (string * accountWrapper)).

(** X10.  The records of a state diff come in three groups, in this order:
    extension and branch nodes, then [Removed] records with an empty value
    and no leaf key, then leaves.  The first group is empty when
    intermediate state nodes are not asked for or addresses are watched. *)
Theorem X10_state_diff_order
    (Hrange : rangeOrder rangeAccounts)
    (args : StateRoots) (params : Params) (output : Sink StateNode)
    (h : list StateNode) :
  exists t1 t2 t3,
    (WriteStateDiffObject db cd rangeAccounts args params output h).1
    = t1 ++ t2 ++ t3 /\
    Forall (fun r => NodeType_ r = Extension \/ NodeType_ r = Branch) t1 /\
    (IntermediateStateNodes params = false \/ WatchedAddresses params <> [] ->
     t1 = []) /\
    Forall (fun r => r = {| NodeType_ := Removed; Path := Path r; NodeValue := [];
                            LeafKey := []; StorageNodes := [] |}) t2 /\
    Forall (fun r => NodeType_ r = Leaf) t3.
Proof.
  destruct (WriteStateDiffObject_shape db cd rangeAccounts Hrange args params output h)
    as (t1 & t2 & t3 & marked & Htr & H1 & Hno & H2 & H3 & _).
  exists t1, t2, t3. split; [exact Htr |].
  split; [eapply Forall_impl; [exact H1 | intros r [Hr _]; exact Hr] |].
  split; [exact Hno |].
  split; [eapply Forall_impl; [exact H2 | intros r [Hr _]; exact Hr] |].
  eapply Forall_impl; [exact H3 | intros r [Hr _]; exact Hr].
Qed.

(** X11.  In a state diff no path is written both as removed and as a
    changed node: a [Removed] record and a record of another type never
    carry the same path. *)
Theorem X11_state_removed_and_written_paths_differ
    (Hrange : rangeOrder rangeAccounts)
    (args : StateRoots) (params : Params) (output : Sink StateNode)
    (h : list StateNode) (r1 r2 : StateNode) :
  r1 ∈ (WriteStateDiffObject db cd rangeAccounts args params output h).1 ->
  r2 ∈ (WriteStateDiffObject db cd rangeAccounts args params output h).1 ->
  NodeType_ r1 = Removed -> NodeType_ r2 <> Removed ->
  Path r1 <> Path r2.
Proof.
  destruct (WriteStateDiffObject_shape db cd rangeAccounts Hrange args params output h)
    as (t1 & t2 & t3 & marked & -> & H1 & _ & H2 & H3 & _).
  rewrite Forall_forall in H1, H2, H3.
  intros Hr1 Hr2 Hrem Hnot Heq.
  assert (~ marked (Bytes2Hex (Path r1))) as Hn1.
  { apply elem_of_app in Hr1 as [Hr1 | Hr1].
    - destruct (H1 r1 Hr1) as [[Ht | Ht] _]; rewrite Ht in Hrem; discriminate.
    - apply elem_of_app in Hr1 as [Hr1 | Hr1]; [apply (H2 r1 Hr1) |].
      destruct (H3 r1 Hr1) as [Ht _]. rewrite Ht in Hrem. discriminate. }
  apply Hn1. rewrite Heq.
  apply elem_of_app in Hr2 as [Hr2 | Hr2]; [apply (H1 r2 Hr2) |].
  apply elem_of_app in Hr2 as [Hr2 | Hr2]; [| apply (H3 r2 Hr2)].
  destruct (H2 r2 Hr2) as [Hr _]. rewrite Hr in Hnot.
  contradiction Hnot. reflexivity.
Qed.

(** X12.  A state diff writes at most one leaf for a leaf key: the leaf keys
    of its records of type Leaf are pairwise distinct. *)
Theorem X12_state_leaf_keys_distinct
    (Hrange : rangeOrder rangeAccounts)
    (args : StateRoots) (params : Params) (output : Sink StateNode)
    (h : list StateNode) :
  NoDup (map LeafKey
           (filter (fun r => NodeType_ r = Leaf)
              (WriteStateDiffObject db cd rangeAccounts args params output h).1)).
Proof.
  destruct (WriteStateDiffObject_shape db cd rangeAccounts Hrange args params output h)
    as (t1 & t2 & t3 & marked & -> & H1 & _ & H2 & H3 & Hnd).
  rewrite !filter_app.
  assert (filter (fun r => NodeType_ r = Leaf) t1 = []) as ->.
  { clear -H1. induction H1 as [| r l [[Ht | Ht] _] _ IH]; [reflexivity | |];
      rewrite filter_cons, decide_False by (rewrite Ht; discriminate); exact IH. }
  assert (filter (fun r => NodeType_ r = Leaf) t2 = []) as ->.
  { clear -H2. induction H2 as [| r l [Hr _] _ IH]; [reflexivity |].
    rewrite filter_cons, decide_False; [exact IH |].
    rewrite Hr. discriminate. }
  assert (filter (fun r => NodeType_ r = Leaf) t3 = t3) as ->.
  { clear -H3. induction H3 as [| r l [Ht _] _ IH]; [reflexivity |].
    rewrite filter_cons, decide_True by exact Ht. f_equal. exact IH. }
  simpl. apply NoDup_leafKeyHex, Hnd.
Qed.

End WholeDiffProperties.

(** * Runs of the further properties on the test stores *)

Lemma X5_witness :
  let run := buildStorageNodesIncremental testDb2 TestStore.testCodec storageRoot2
               TestStore.storageRoot [] true storageNodeAppender [] in
  removedStorageNode [x03] ∈ run.1 /\ slotRecord ∈ run.1 /\
  sto_NodeType (removedStorageNode [x03]) = Removed /\
  sto_NodeType slotRecord <> Removed /\
  sto_Path (removedStorageNode [x03]) <> sto_Path slotRecord.
Proof.
  intros run.
  assert (removedStorageNode [x03] ∈ run.1) as H1.
  { apply list_elem_of_In. vm_compute. auto. }
  assert (slotRecord ∈ run.1) as H2.
  { apply list_elem_of_In. vm_compute. auto. }
  split; [exact H1 |]. split; [exact H2 |].
  split; [reflexivity |]. split; [discriminate |].
  exact (X5_incremental_removed_and_written_paths_differ testDb2 TestStore.testCodec
           storageRoot2 TestStore.storageRoot [] true storageNodeAppender []
           (removedStorageNode [x03]) slotRecord H1 H2 eq_refl
           (fun H : Leaf = Removed => eq_ind Leaf (fun t => match t with Leaf => True | _ => False end) I Removed H)).
Defined.

Lemma X6_witness :
  let run := buildStorageNodesIncremental testDb2 TestStore.testCodec storageRoot2
               TestStore.storageRoot [TestStore.slotKey] false storageNodeAppender [] in
  slotRecord ∈ run.1 /\
  (sto_NodeType slotRecord = Leaf \/ sto_NodeType slotRecord = Extension \/
   sto_NodeType slotRecord = Branch \/
   slotRecord = {| sto_NodeType := Removed; sto_Path := sto_Path slotRecord;
                   sto_NodeValue := []; sto_LeafKey := [] |}) /\
  (false = false ->
   sto_NodeType slotRecord <> Extension /\ sto_NodeType slotRecord <> Branch) /\
  ([TestStore.slotKey] <> [] -> sto_NodeType slotRecord = Leaf ->
   sto_LeafKey slotRecord ∈ [TestStore.slotKey]).
Proof.
  intros run.
  assert (slotRecord ∈ run.1) as H1.
  { apply list_elem_of_In. vm_compute. auto. }
  split; [exact H1 |].
  exact (X6_incremental_storage_filters testDb2 TestStore.testCodec storageRoot2
           TestStore.storageRoot [TestStore.slotKey] false storageNodeAppender []
           slotRecord H1).
Defined.

Lemma X8_witness :
  let run := buildStorageNodesIncremental TestStore.testDb TestStore.testCodec
               TestStore.emptyRoot TestStore.storageRoot [] true
               refusingStorageSink [] in
  run.1 = [] ++ slotRecord :: [] /\
  refusingStorageSink ([] ++ []) slotRecord = Some "storage sink closed" /\
  ([] : list StorageNode) = [] /\ run.2 = Err "storage sink closed".
Proof.
  intros run.
  assert (run.1 = [] ++ slotRecord :: []) as H1 by (vm_compute; reflexivity).
  split; [exact H1 |]. split; [reflexivity |].
  exact (X8_incremental_storage_sink_error TestStore.testDb TestStore.testCodec
           TestStore.emptyRoot TestStore.storageRoot [] true refusingStorageSink
           [] [] [] slotRecord "storage sink closed" H1 eq_refl).
Defined.

Lemma X9_witness :
  let run := buildStorageNodesEventual TestStore.testDb TestStore.testCodec
               TestStore.storageRoot [] true refusingStorageSink [] in
  run.1 = [] ++ slotRecord :: [] /\
  refusingStorageSink ([] ++ []) slotRecord = Some "storage sink closed" /\
  ([] : list StorageNode) = [] /\ run.2 = Err "storage sink closed".
Proof.
  intros run.
  assert (run.1 = [] ++ slotRecord :: []) as H1 by (vm_compute; reflexivity).
  split; [exact H1 |]. split; [reflexivity |].
  exact (X9_eventual_storage_sink_error TestStore.testDb TestStore.testCodec
           TestStore.storageRoot [] true refusingStorageSink
           [] [] [] slotRecord "storage sink closed" H1 eq_refl).
Defined.

Lemma X10_witness :
  let run := WriteStateDiffObject TestStore.testDb TestStore.testCodec
               TestStore.rangeAscending
               (TestStore.roots (TestStore.hashOf x02) (TestStore.hashOf x01))
               TestStore.params0 stateNodeAppender [] in
  rangeOrder TestStore.rangeAscending /\
  length run.1 = 3 /\
  exists t1 t2 t3,
    run.1 = t1 ++ t2 ++ t3 /\
    Forall (fun r => NodeType_ r = Extension \/ NodeType_ r = Branch) t1 /\
    (IntermediateStateNodes TestStore.params0 = false \/
     WatchedAddresses TestStore.params0 <> [] -> t1 = []) /\
    Forall (fun r => r = {| NodeType_ := Removed; Path := Path r; NodeValue := [];
                            LeafKey := []; StorageNodes := [] |}) t2 /\
    Forall (fun r => NodeType_ r = Leaf) t3.
Proof.
  intros run. split; [exact rangeAscending_order |].
  split; [vm_compute; reflexivity |].
  exact (X10_state_diff_order TestStore.testDb TestStore.testCodec
           TestStore.rangeAscending rangeAscending_order
           (TestStore.roots (TestStore.hashOf x02) (TestStore.hashOf x01))
           TestStore.params0 stateNodeAppender []).
Defined.

Lemma X11_witness :
  let run := WriteStateDiffObject TestStore.testDb TestStore.testCodec
               TestStore.rangeAscending
               (TestStore.roots (TestStore.hashOf x02) (TestStore.hashOf x01))
               TestStore.params0 stateNodeAppender [] in
  let r1 := removedStateNode [x01] in
  let r2 := default (removedStateNode []) (last run.1) in
  rangeOrder TestStore.rangeAscending /\
  r1 ∈ run.1 /\ r2 ∈ run.1 /\
  NodeType_ r1 = Removed /\ NodeType_ r2 <> Removed /\
  Path r1 <> Path r2.
Proof.
  intros run r1 r2.
  assert (r1 ∈ run.1) as H1.
  { apply list_elem_of_In. vm_compute. auto. }
  assert (r2 ∈ run.1) as H2.
  { apply list_elem_of_In. vm_compute. auto. }
  assert (NodeType_ r2 <> Removed) as H3.
  { vm_compute. discriminate. }
  split; [exact rangeAscending_order |].
  split; [exact H1 |]. split; [exact H2 |].
  split; [reflexivity |]. split; [exact H3 |].
  exact (X11_state_removed_and_written_paths_differ TestStore.testDb
           TestStore.testCodec TestStore.rangeAscending rangeAscending_order
           (TestStore.roots (TestStore.hashOf x02) (TestStore.hashOf x01))
           TestStore.params0 stateNodeAppender [] r1 r2 H1 H2 eq_refl H3).
Defined.

Lemma X12_witness :
  let run := WriteStateDiffObject TestStore.testDb TestStore.testCodec
               TestStore.rangeAscending
               (TestStore.roots (TestStore.hashOf x01) (TestStore.hashOf x02))
               TestStore.params0 stateNodeAppender [] in
  rangeOrder TestStore.rangeAscending /\
  length (filter (fun r => NodeType_ r = Leaf) run.1) = 2 /\
  NoDup (map LeafKey (filter (fun r => NodeType_ r = Leaf) run.1)).
Proof.
  intros run. split; [exact rangeAscending_order |].
  split; [vm_compute; reflexivity |].
  exact (X12_state_leaf_keys_distinct TestStore.testDb TestStore.testCodec
           TestStore.rangeAscending rangeAscending_order
           (TestStore.roots (TestStore.hashOf x01) (TestStore.hashOf x02))
           TestStore.params0 stateNodeAppender []).
Defined.
